(** * capytaine/symmetries.py: symmetric bodies and their influence matrices

    A shallow embedding of [ReflectionSymmetry] and [TranslationalSymmetry]
    (construction and [build_matrices]) together with the small part of
    Python and numpy they rely on: assertions and exceptions, slices,
    two-dimensional arrays with a dtype, slice reads and slice assignments
    with casting and broadcasting. *)

From stdpp Require Import gmap strings list fin_maps pretty.
From Stdlib Require Import ZArith Lia.

Open Scope string_scope.
Open Scope list_scope.
Open Scope nat_scope.

(** ** Python values, exceptions and results *)

(** The values a caller may pass for [nb_repetitions].  A float is kept as
    mantissa and binary exponent; only its class matters here. *)
Inductive pyvalue :=
  | PyInt (z : Z)
  | PyBool (b : bool)
  | PyFloat (m e : Z)
  | PyStr (s : string)
  | PyNone.

(** [isinstance(v, int)]: [bool] is a subclass of [int] in Python, with
    [True == 1] and [False == 0]. *)
Definition as_int (v : pyvalue) : option Z :=
  match v with
  | PyInt z => Some z
  | PyBool b => Some (if b then 1 else 0)%Z
  | _ => None
  end.

(** Exception classes.  The first four are the built-in ones this file can
    raise by itself; any other class (raised by a collaborator) is kept by
    name. *)
Inductive exn :=
  | AssertionError
  | IndexError
  | ValueError
  | UnboundLocalError
  | OtherError (cls : string).

Inductive result (A : Type) :=
  | Ok (a : A)
  | Raise (e : exn).
Arguments Ok {A} a.
Arguments Raise {A} e.

(** ** numpy: dtypes, slices and two-dimensional arrays *)

Inductive Dtype := float32 | float64 | complex64 | complex128.

Global Instance Dtype_eq_dec : EqDecision Dtype.
Proof. solve_decision. Defined.

(** [slice(start, stop)] with non-negative or absent bounds. *)
Record slice := Slice { start : option nat; stop : option nat }.

(** [slice.indices(len)]: both bounds are clipped to [len]; the slice
    selects [lo, lo+1, ..., hi-1] (nothing when [hi <= lo]). *)
Definition slice_bounds (s : slice) (len : nat) : nat * nat :=
  (default 0 (start s) `min` len, default len (stop s) `min` len).

Definition in_slice (s : slice) (len i : nat) : bool :=
  let '(lo, hi) := slice_bounds s len in
  bool_decide (lo ≤ i) && bool_decide (i < hi).

Definition block : Type := slice * slice.

(** The types this module is generic in: matrix entries, rows of a
    degree-of-freedom array, coordinates, meshes, planes and the keyword
    arguments handed through to the kernel. *)
Class Universe := {
  Val : Type;
  DofRow : Type;
  Coord : Type;
  Mesh : Type;
  Plane : Type;
  Kwargs : Type;
}.

Section Arrays.
Context `{U : Universe}.

(** A two-dimensional [numpy.ndarray]: dtype, shape and the rows. *)
Record ndarray := mk_ndarray {
  dtype : Dtype;
  nrows : nat;
  ncols : nat;
  cells : list (list Val);
}.

(** The buffer agrees with the announced shape [(r, c)]. *)
Definition well_shaped (a : ndarray) (r c : nat) : bool :=
  bool_decide (nrows a = r) && bool_decide (ncols a = c) &&
  bool_decide (length (cells a) = r) &&
  forallb (λ row, bool_decide (length row = c)) (cells a).

Definition cell (a : ndarray) (i j : nat) : option Val :=
  cells a !! i ≫= (.!! j).

(** [a[rs, cs]] read: the selected block, same dtype. *)
Definition getitem (a : ndarray) (b : block) : ndarray :=
  let '(r0, r1) := slice_bounds b.1 (nrows a) in
  let '(c0, c1) := slice_bounds b.2 (ncols a) in
  {| dtype := dtype a;
     nrows := r1 - r0;
     ncols := c1 - c0;
     cells := (λ row, take (c1 - c0) (drop c0 row))
                <$> take (r1 - r0) (drop r0 (cells a)) |}.

(** A source extent fits a destination extent when equal, or when it is 1
    (numpy broadcasting). *)
Definition broadcastable (src dst : nat) : bool :=
  bool_decide (src = dst) || bool_decide (src = 1).
End Arrays.

(** ** Floating bodies and collections of floating bodies *)

Section Bodies.
Context `{U : Universe}.

(** The attributes of a [FloatingBody] read or written by this module.
    [dofs] maps the name of a degree of freedom to an array with one row
    per face. *)
Record Body := mk_Body {
  name : string;
  mesh : Mesh;
  nb_faces : nat;
  nb_matrices_to_keep : Z;
  dofs : gmap string (list DofRow);
}.

Definition set_name (b : Body) (s : string) : Body :=
  {| name := s; mesh := mesh b; nb_faces := nb_faces b;
     nb_matrices_to_keep := nb_matrices_to_keep b; dofs := dofs b |}.

Definition set_nb_matrices_to_keep (b : Body) (k : Z) : Body :=
  {| name := name b; mesh := mesh b; nb_faces := nb_faces b;
     nb_matrices_to_keep := k; dofs := dofs b |}.

(** A [CollectionOfFloatingBodies] (and so a [_SymmetricBody]): its
    sub-bodies in order, its name and its own degrees of freedom. *)
Record Collection := mk_Collection {
  coll_name : string;
  subbodies : list Body;
  coll_dofs : gmap string (list DofRow);
}.

(** Modelled from the spec: [CollectionOfFloatingBodies.nb_faces] is not
    in this file; the total face count of a composite is the sum of the
    face counts of its generators. *)
Definition coll_nb_faces (c : Collection) : nat :=
  sum_list (nb_faces <$> subbodies c).

(** Modelled from the spec: [CollectionOfFloatingBodies.__init__] is not
    in this file; it keeps the given bodies as the ordered sequence of
    generators.  The name and the degrees of freedom it sets are
    overwritten by both constructors below before they return. *)
Definition Collection_init (bodies : list Body) : Collection :=
  {| coll_name := ""; subbodies := bodies; coll_dofs := ∅ |}.

Definition set_coll_name (c : Collection) (s : string) : Collection :=
  {| coll_name := s; subbodies := subbodies c; coll_dofs := coll_dofs c |}.

Definition set_coll_dofs (c : Collection) (d : gmap string (list DofRow))
  : Collection :=
  {| coll_name := coll_name c; subbodies := subbodies c; coll_dofs := d |}.

(** Any object that can be passed as [other_body]. *)
Inductive PyBody :=
  | Plain (b : Body)
  | Composite (c : Collection).

Definition body_nb_faces (o : PyBody) : nat :=
  match o with
  | Plain b => nb_faces b
  | Composite c => coll_nb_faces c
  end.

Definition generators (o : PyBody) : list Body :=
  match o with
  | Plain b => [b]
  | Composite c => subbodies c
  end.

(** The [other_body] argument of [self.build_matrices] is a reference:
    either to the very object [self], or to some other object (which may
    well be structurally equal to [self]).  [other_body == self] is
    object identity, no class here overrides it. *)
Inductive reference :=
  | Self
  | Other (o : PyBody).

Definition is_self (r : reference) : bool :=
  match r with Self => true | Other _ => false end.

Definition deref (self : Collection) (r : reference) : PyBody :=
  match r with Self => Composite self | Other o => o end.

(** One evaluation of the kernel: [a.build_matrices(b, **kwargs)]. *)
Definition Call : Type := Body * Body * Kwargs.
End Bodies.

(** ** The collaborators

    Everything this module calls but does not define. *)
Class Collaborators `{U : Universe} := {
  (** conversion of an entry to a dtype, as done when numpy stores a value
      in an array of another dtype *)
  cast : Dtype → Val → Val;
  (** what [np.empty] finds in memory: the entry at [(i, j)] of the [k]-th
      buffer *)
  uninitialised : nat → nat → nat → Val;
  (** [i * x] for a Python int [i] and a coordinate [x] *)
  coord_mul : Z → Coord → Coord;
  (** [FloatingBody.copy], [.mirror] and [.translate]; the last two work in
      place on a fresh copy and are given as functions of the old state *)
  Body_copy : Body → Body;
  Body_mirror : Body → Plane → Body;
  Body_translate : Body → list Coord → Body;
  (** [FloatingBody.build_matrices] of a single body: the kernel *)
  Body_build_matrices : Body → Body → Kwargs → result (ndarray * ndarray);
}.

Section Program.
Context `{C : Collaborators}.

(** *** numpy: allocation and slice assignment *)

(** Storing an entry of dtype [from] in an array of dtype [to]. *)
Definition convert (from to : Dtype) (x : Val) : Val :=
  if decide (from = to) then x else cast to x.

(** [np.empty((r, c), dtype=dt)]: a fresh array, entries not initialised. *)
Definition np_empty (k : nat) (shape : nat * nat) (dt : Dtype) : ndarray :=
  {| dtype := dt;
     nrows := shape.1;
     ncols := shape.2;
     cells := (λ i, uninitialised k i <$> seq 0 shape.2) <$> seq 0 shape.1 |}.

(** The row of the value [v] that lands on row [k] of a block of height
    [h]: row [k], or the only row when [v] is broadcast along the rows. *)
Definition source_row (v : ndarray) (h k : nat) : list Val :=
  default [] (cells v !! (if bool_decide (nrows v = h) then k else 0)).

(** A row of the value [v] stretched to the width [w] of the block. *)
Definition stretch (v : ndarray) (w : nat) (row : list Val) : list Val :=
  if bool_decide (ncols v = w) then row
  else match row with x :: _ => replicate w x | [] => [] end.

(** [a[rs, cs] = v]: the value must have the shape of the selected block,
    up to broadcasting, or numpy raises [ValueError]; entries are
    converted to the dtype of [a], which keeps its dtype and shape. *)
Definition setitem (a : ndarray) (b : block) (v : ndarray) : result ndarray :=
  let '(r0, r1) := slice_bounds b.1 (nrows a) in
  let '(c0, c1) := slice_bounds b.2 (ncols a) in
  let h := r1 - r0 in
  let w := c1 - c0 in
  if broadcastable (nrows v) h && broadcastable (ncols v) w then
    let patch (k : nat) : list Val :=
      convert (dtype v) (dtype a) <$> stretch v w (source_row v h k) in
    Ok {| dtype := dtype a;
          nrows := nrows a;
          ncols := ncols a;
          cells := imap (λ i row,
                     if bool_decide (r0 ≤ i < r1)
                     then take c0 row ++ patch (i - r0) ++ drop (c0 + w) row
                     else row) (cells a) |}
  else Raise ValueError.

(** [np.concatenate(arrays)] along the first axis.  (numpy raises
    [ValueError] on an empty list; both callers below pass at least one
    array once their assertions have passed.) *)
Definition np_concatenate (arrays : list (list DofRow)) : list DofRow :=
  mjoin arrays.

(** [l * n] for a Python list [l] and an int [n]. *)
Definition list_mul {A} (l : list A) (n : Z) : list A :=
  mjoin (replicate (Z.to_nat n) l).

(** [itertools.accumulate]: running sums. *)
Fixpoint accumulate_from (acc : nat) (l : list nat) : list nat :=
  match l with
  | [] => []
  | x :: l => (acc + x) :: accumulate_from (acc + x) l
  end.
Definition accumulate (l : list nat) : list nat := accumulate_from 0 l.

(** *** Computations that call the kernel

    A computation threads the log of the kernel evaluations made so far
    and either returns or raises. *)
Definition M (A : Type) : Type := list Call → result A * list Call.

Global Instance M_ret : MRet M := λ A a log, (Ok a, log).
Global Instance M_bind : MBind M := λ A B f m log,
  match m log with
  | (Ok a, log') => f a log'
  | (Raise e, log') => (Raise e, log')
  end.

Definition raise {A} (e : exn) : M A := λ log, (Raise e, log).

Definition lift {A} (r : result A) : M A := λ log, (r, log).

(** [a.build_matrices(b, **kwargs)] for a plain body [a]. *)
Definition call_kernel (a b : Body) (kwargs : Kwargs) : M (ndarray * ndarray) :=
  λ log, (Body_build_matrices a b kwargs, log ++ [(a, b, kwargs)]).

(** [l[i]] for a list and a non-negative index. *)
Definition subscript {A} (l : list A) (i : nat) : M A :=
  match l !! i with
  | Some x => mret x
  | None => raise IndexError
  end.

(** Reading a local variable that may not have been bound yet. *)
Definition read_local {A} (v : option A) : M A :=
  match v with
  | Some x => mret x
  | None => raise UnboundLocalError
  end.

(** [for x in l: a = f(a, x)] *)
Fixpoint foldM {A B} (f : A → B → M A) (a : A) (l : list B) : M A :=
  match l with
  | [] => mret a
  | x :: l => a' ← f a x; foldM f a' l
  end.

(** [dst[blk], dst'[blk] = pair]: the two assignments of a tuple
    unpacking, left to right. *)
Definition assign_pair (SV : ndarray * ndarray) (blk : block)
    (pair : ndarray * ndarray) : M (ndarray * ndarray) :=
  S ← lift (setitem SV.1 blk pair.1);
  V ← lift (setitem SV.2 blk pair.2);
  mret (S, V).
End Program.

Section Symmetries.
Context `{C : Collaborators}.

(** Modelled from the spec: [CollectionOfFloatingBodies.build_matrices],
    the generic assembly both classes fall back on, is not in this file.
    It evaluates the kernel on every (generator of [self], generator of
    [other_body]) pair, with no reuse, and writes each result into the
    block fixed by the prefix sums of the face counts; the matrices have
    the same single-precision complex dtype as on the accelerated paths. *)
Definition Collection_build_matrices (self : Collection) (other_body : PyBody)
    (kwargs : Kwargs) : M (ndarray * ndarray) :=
  let S := np_empty 0 (coll_nb_faces self, body_nb_faces other_body) complex64 in
  let V := np_empty 1 (coll_nb_faces self, body_nb_faces other_body) complex64 in
  let ranges (bodies : list Body) : list slice :=
    let offsets := accumulate (0 :: (nb_faces <$> bodies)) in
    (λ '(i, j), Slice (Some i) (Some j)) <$> zip offsets (tail offsets) in
  foldM (λ SV '(rows, a),
    foldM (λ SV '(cols, b),
      pair ← call_kernel a b kwargs;
      assign_pair SV (rows, cols) pair)
    SV (zip (ranges (generators other_body)) (generators other_body)))
  (S, V) (zip (ranges (subbodies self)) (subbodies self)).

(** *** class ReflectionSymmetry *)

(** [ReflectionSymmetry.__init__(self, half, plane)].  Both assertions
    hold by typing.  Returns the final state of the object [half], which
    the constructor updates in place, and the new composite. *)
Definition ReflectionSymmetry_init (half : Body) (plane : Plane)
    : Body * result Collection :=
  let half := set_nb_matrices_to_keep half (nb_matrices_to_keep half * 2) in
  let other_half := Body_copy half in
  let other_half := Body_mirror other_half plane in
  let other_half := set_name other_half ("mirror_of_" +:+ name half) in
  let self := Collection_init [half; other_half] in
  let self := set_coll_name self ("mirrored_" +:+ name half) in
  let self := set_coll_dofs self
    (map_fold (λ name dof (acc : gmap string (list DofRow)),
                 <["mirrored_" +:+ name := np_concatenate [dof; dof]]> acc)
              ∅ (dofs half)) in
  (half, Ok self).

(** The index ranges of the four quarters of the matrix of a body with
    [nb_faces] faces, as [build_matrices] below lays them out. *)
Definition top_left (nb_faces : nat) : block :=
  (Slice None (Some (nb_faces / 2)), Slice None (Some (nb_faces / 2))).
Definition top_right (nb_faces : nat) : block :=
  (Slice None (Some (nb_faces / 2)), Slice (Some (nb_faces / 2)) None).
Definition bottom_left (nb_faces : nat) : block :=
  (Slice (Some (nb_faces / 2)) None, Slice None (Some (nb_faces / 2))).
Definition bottom_right (nb_faces : nat) : block :=
  (Slice (Some (nb_faces / 2)) None, Slice (Some (nb_faces / 2)) None).

(** [ReflectionSymmetry.build_matrices(self, other_body,
    force_full_computation, **kwargs)] *)
Definition ReflectionSymmetry_build_matrices (self : Collection)
    (other_body : reference) (force_full_computation : bool)
    (kwargs : Kwargs) : M (ndarray * ndarray) :=
  if is_self other_body && negb force_full_computation then
    let S := np_empty 0 (coll_nb_faces self,
                         body_nb_faces (deref self other_body)) complex64 in
    let V := np_empty 1 (coll_nb_faces self,
                         body_nb_faces (deref self other_body)) complex64 in
    (* Indices ranges of the four quarters of the matrix *)
    let top_left     := top_left (coll_nb_faces self) in
    let top_right    := top_right (coll_nb_faces self) in
    let bottom_left  := bottom_left (coll_nb_faces self) in
    let bottom_right := bottom_right (coll_nb_faces self) in
    (* Evaluation of two of the quarters *)
    a ← subscript (subbodies self) 0;
    b ← subscript (subbodies self) 0;
    pair ← call_kernel a b kwargs;
    SV ← assign_pair (S, V) top_left pair;
    a ← subscript (subbodies self) 0;
    b ← subscript (subbodies self) 1;
    pair ← call_kernel a b kwargs;
    SV ← assign_pair SV top_right pair;
    (* Copy the values in the two other quarters *)
    SV ← assign_pair SV bottom_left (getitem SV.1 top_right, getitem SV.2 top_right);
    SV ← assign_pair SV bottom_right (getitem SV.1 top_left, getitem SV.2 top_left);
    mret SV
  else
    Collection_build_matrices self (deref self other_body) kwargs.

(** *** class TranslationalSymmetry *)

(** The body of the loop of [TranslationalSymmetry.__init__]: the [i]-th
    repetition of [body_slice]. *)
Definition new_slice (body_slice : Body) (translation : list Coord)
    (nb_repetitions i : Z) : Body :=
  let new_slice := Body_copy body_slice in
  let new_slice := Body_translate new_slice (coord_mul i <$> translation) in
  let new_slice := set_nb_matrices_to_keep new_slice
                     (nb_matrices_to_keep new_slice * (nb_repetitions + 1)) in
  set_name new_slice
    ("repetition_" +:+ pretty i +:+ "_of_" +:+ name body_slice).

(** [TranslationalSymmetry.__init__(self, body_slice, translation,
    nb_repetitions)].  The first assertion holds by typing; [translation]
    is a flat sequence, so that [np.asarray(translation).shape] is
    [(len(translation),)].  Returns the final state of the object
    [body_slice] and the new composite, or the exception raised. *)
Definition TranslationalSymmetry_init (body_slice : Body)
    (translation : list Coord) (nb_repetitions : pyvalue)
    : Body * result Collection :=
  match as_int nb_repetitions with
  | None => (body_slice, Raise AssertionError)
  | Some n =>
    if negb (bool_decide (1 ≤ n)%Z) then (body_slice, Raise AssertionError)
    else if negb (bool_decide (length translation = 3))
    then (body_slice, Raise AssertionError)
    else
      let body_slice :=
        set_nb_matrices_to_keep body_slice (nb_matrices_to_keep body_slice * n) in
      let slices :=
        foldl (λ slices i, slices ++ [new_slice body_slice translation n i])
              [body_slice] (seqZ 1 n) in
      let self := Collection_init slices in
      let self := set_coll_name self ("repeated_" +:+ name body_slice) in
      let self := set_coll_dofs self
        (map_fold (λ name dof (acc : gmap string (list DofRow)),
                     <["translated_" +:+ name := np_concatenate (list_mul [dof] n)]> acc)
                  ∅ (dofs body_slice)) in
      (body_slice, Ok self)
  end.

(** The indices of each block composing the block matrix, as
    [build_matrices] below computes them: [matrix_blocks[i][j]] selects
    the rows of sub-body [i] and the columns of sub-body [j]. *)
Definition matrix_blocks (self : Collection) : list (list block) :=
  let nb_faces := accumulate (0 :: (nb_faces <$> subbodies self)) in
  (λ '(i, j),
     (λ '(k, l), (Slice (Some i) (Some j), Slice (Some k) (Some l)))
       <$> zip nb_faces (tail nb_faces))
    <$> zip nb_faces (tail nb_faces).

(** [TranslationalSymmetry.build_matrices(self, other_body,
    force_full_computation, **kwargs)].  [body] is a local variable of
    the function, bound only by the loop over the first line of blocks. *)
Definition TranslationalSymmetry_build_matrices (self : Collection)
    (other_body : reference) (force_full_computation : bool)
    (kwargs : Kwargs) : M (ndarray * ndarray) :=
  let body : option Body := None in
  if is_self other_body && negb force_full_computation then
    let S := np_empty 0 (coll_nb_faces self,
                         body_nb_faces (deref self other_body)) complex64 in
    let V := np_empty 1 (coll_nb_faces self,
                         body_nb_faces (deref self other_body)) complex64 in
    (* Compute the indices of each block composing the block matrix *)
    let matrix_blocks := matrix_blocks self in
    (* Compute the values of the first column of blocks *)
    first_line ← subscript matrix_blocks 0;
    SV ← foldM (λ SV '(matrix_block, body),
            first ← subscript (subbodies self) 0;
            pair ← call_kernel first body kwargs;
            assign_pair SV matrix_block pair)
          (S, V) (zip first_line (subbodies self));
    (* Copy in the rest of the matrix *)
    SV ← foldM (λ SV i,
            line ← subscript matrix_blocks i;
            foldM (λ SV j,
                first_line ← subscript matrix_blocks 0;
                src ← subscript first_line (Z.abs_nat (Z.of_nat j - Z.of_nat i));
                line ← subscript matrix_blocks i;
                dst ← subscript line j;
                S ← lift (setitem SV.1 dst (getitem SV.1 src));
                first_line ← subscript matrix_blocks 0;
                src ← subscript first_line (Z.abs_nat (Z.of_nat j - Z.of_nat i));
                line ← subscript matrix_blocks i;
                dst ← subscript line j;
                V ← lift (setitem SV.2 dst (getitem SV.2 src));
                mret (S, V))
              SV (seq 0 (length line)))
          SV (seq 1 (length matrix_blocks - 1));
    mret SV
  else
    body ← read_local body;
    Collection_build_matrices self (Plain body) kwargs.

(** *** Vocabulary for the statements *)

(** The kernel evaluation interface: the kernel answers with two arrays
    of shape [(faces of a, faces of b)]. *)
Definition kernel_ok (kwargs : Kwargs) (a b : Body) : bool :=
  match Body_build_matrices a b kwargs with
  | Ok (s, v) => well_shaped s (nb_faces a) (nb_faces b) &&
                 well_shaped v (nb_faces a) (nb_faces b)
  | Raise _ => false
  end.

(** The kernel honours its interface on the evaluations the accelerated
    paths make: the first generator against every generator. *)
Definition first_line_ok (self : Collection) (kwargs : Kwargs) : bool :=
  match subbodies self with
  | [] => false
  | first :: _ => forallb (kernel_ok kwargs first) (subbodies self)
  end.

(** Copying, mirroring and translating a body keep its number of faces. *)
Definition faces_preserved : Prop :=
  (∀ b, nb_faces (Body_copy b) = nb_faces b) ∧
  (∀ b p, nb_faces (Body_mirror b p) = nb_faces b) ∧
  (∀ b v, nb_faces (Body_translate b v) = nb_faces b).

(** The kernel gives the same answer when the two generators of a
    two-generator composite are swapped: mirror against original as
    original against mirror, mirror against itself as original against
    itself. *)
Definition mirror_invariant (self : Collection) (kwargs : Kwargs) : Prop :=
  match subbodies self with
  | [half; other_half] =>
      Body_build_matrices other_half half kwargs
        = Body_build_matrices half other_half kwargs ∧
      Body_build_matrices other_half other_half kwargs
        = Body_build_matrices half half kwargs
  | _ => False
  end.

(** Entry [(i, j)] of an [r] by [c] array lies in the block. *)
Definition in_block (b : block) (r c i j : nat) : bool :=
  in_slice b.1 r i && in_slice b.2 c j.

(** The array [A] is the single-precision block matrix whose block
    [(i, j)], of [f] by [f] entries, holds the [|j - i|]-th array of
    [first_line], converted. *)
Definition assembled (A : ndarray) (first_line : list ndarray) (f : nat) : Prop :=
  let m := length first_line in
  well_shaped A (m * f) (m * f) = true ∧
  dtype A = complex64 ∧
  ∀ i j s a b, i < m → j < m →
    first_line !! Z.abs_nat (Z.of_nat j - Z.of_nat i) = Some s →
    a < f → b < f →
    cell A (i * f + a) (j * f + b) = convert (dtype s) complex64 <$> cell s a b.

(** Block [(i, j)] of a grid of blocks of [f] by [f] entries. *)
Definition uniform_block (f i j : nat) : block :=
  (Slice (Some (i * f)) (Some (S i * f)), Slice (Some (j * f)) (Some (S j * f))).

(** Invariant of the first loop of the translation assembly, after [k]
    iterations: the first [k] blocks of the first line hold the kernel
    results. *)
Definition first_line_filled (m f k : nat) (line : list ndarray)
    (A : ndarray) : Prop :=
  well_shaped A (m * f) (m * f) = true ∧
  dtype A = complex64 ∧
  ∀ j s a b, j < k → line !! j = Some s → a < f → b < f →
    cell A a (j * f + b) = convert (dtype s) complex64 <$> cell s a b.

(** Invariant of the copy loops of the translation assembly, where [A1]
    is the array the first loop left: the first line is untouched, the
    lines before line [i] and the first [j] blocks of line [i] are
    copies of the blocks of the first line. *)
Definition lines_copied (m f i j : nat) (A1 A : ndarray) : Prop :=
  well_shaped A (m * f) (m * f) = true ∧
  dtype A = complex64 ∧
  (∀ a x, a < f → cell A a x = cell A1 a x) ∧
  (∀ i' j' a b, (1 ≤ i' < i ∧ j' < m) ∨ (i' = i ∧ j' < j) →
     a < f → b < f →
     cell A (i' * f + a) (j' * f + b)
     = cell A1 a (Z.abs_nat (Z.of_nat j' - Z.of_nat i') * f + b)).

(** Block [(i, j)] of the grid of a translation composite. *)
Definition block_at (self : Collection) (i j : nat) : option block :=
  matrix_blocks self !! i ≫= (.!! j).
End Symmetries.

(** ** A concrete instance

    Integers for entries and coordinates, a mesh reduced to the
    position of its reference point, a plane given by the axis it is normal
    to (through the origin).  Two kernels: one that depends only on the
    distance between the two bodies, one that depends on the first body
    alone. *)
Module Demo.
Definition universe : Universe :=
  {| Val := Z; DofRow := Z; Coord := Z; Mesh := list Z; Plane := nat;
     Kwargs := list (string * pyvalue) |}.
#[local] Existing Instance universe.

(** Single precision drops the last bit of an entry. *)
Definition demo_cast (dt : Dtype) (x : Z) : Z :=
  match dt with
  | float32 | complex64 => (2 * (x / 2))%Z
  | _ => x
  end.

Definition demo_mirror (b : Body) (axis : nat) : Body :=
  {| name := name b;
     mesh := imap (λ k x, if bool_decide (k = axis) then (- x)%Z else x) (mesh b);
     nb_faces := nb_faces b;
     nb_matrices_to_keep := nb_matrices_to_keep b;
     dofs := dofs b |}.

Definition demo_translate (b : Body) (v : list Z) : Body :=
  {| name := name b;
     mesh := zip_with Z.add (mesh b) v;
     nb_faces := nb_faces b;
     nb_matrices_to_keep := nb_matrices_to_keep b;
     dofs := dofs b |}.

Definition full (dt : Dtype) (r c : nat) (f : Z → Z → Z) : ndarray :=
  {| dtype := dt; nrows := r; ncols := c;
     cells := (λ i, (λ j, f (Z.of_nat i) (Z.of_nat j)) <$> seq 0 c) <$> seq 0 r |}.

Definition distance (a b : Body) : Z :=
  foldr Z.add 0%Z (zip_with (λ x y, Z.abs (x - y)) (mesh a) (mesh b)).

Definition even_kernel (a b : Body) (kw : Kwargs)
    : result (ndarray * ndarray) :=
  Ok (full complex128 (nb_faces a) (nb_faces b)
        (λ i j, 1000 * distance a b + 10 * i + j + 1)%Z,
      full complex128 (nb_faces a) (nb_faces b)
        (λ i j, - (1000 * distance a b + 10 * i + j + 1))%Z).

Definition skew_kernel (a b : Body) (kw : Kwargs)
    : result (ndarray * ndarray) :=
  Ok (full complex128 (nb_faces a) (nb_faces b)
        (λ i j, 1000 * foldr Z.add 0 (mesh a) + 10 * i + j)%Z,
      full complex128 (nb_faces a) (nb_faces b)
        (λ i j, - (1000 * foldr Z.add 0 (mesh a) + 10 * i + j))%Z).

Definition even : Collaborators :=
  {| cast := demo_cast;
     uninitialised := λ k i j, (- 1 - Z.of_nat k)%Z;
     coord_mul := Z.mul;
     Body_copy := λ b, b;
     Body_mirror := demo_mirror;
     Body_translate := demo_translate;
     Body_build_matrices := even_kernel |}.

Definition skew : Collaborators :=
  {| cast := demo_cast;
     uninitialised := λ k i j, (- 1 - Z.of_nat k)%Z;
     coord_mul := Z.mul;
     Body_copy := λ b, b;
     Body_mirror := demo_mirror;
     Body_translate := demo_translate;
     Body_build_matrices := skew_kernel |}.

(** A body with two faces, one unit away from the plane [x = 0]. *)
Definition hull : Body :=
  {| name := "hull"; mesh := [1; 0; 0]%Z; nb_faces := 2;
     nb_matrices_to_keep := 1;
     dofs := {[ "Heave" := [10; 20]%Z ]} |}.

Definition no_kwargs : Kwargs := [].

(** The composite a constructor call returned, or an empty collection
    when it raised. *)
Definition built (r : Body * result Collection) : Collection :=
  match r.2 with
  | Ok c => c
  | Raise _ => Collection_init []
  end.

Definition mirrored_hull : Collection :=
  built (@ReflectionSymmetry_init universe even hull 0).

Definition repeated_hull (n : Z) : Collection :=
  built (@TranslationalSymmetry_init universe even hull [1; 0; 0]%Z (PyInt n)).

(** The state of [hull] once each constructor has updated it in place. *)
Definition hull_mirrored : Body :=
  (@ReflectionSymmetry_init universe even hull 0).1.

Definition hull_repeated (n : Z) : Body :=
  (@TranslationalSymmetry_init universe even hull [1; 0; 0]%Z (PyInt n)).1.

(** The same reflection composite, in the world of the second kernel. *)
Definition skew_mirrored_hull : Collection :=
  built (@ReflectionSymmetry_init universe skew hull 0).

(** A kernel that gives up on bodies [limit] or more apart, and answers as
    [even_kernel] otherwise. *)
Definition failing_kernel (limit : Z) (a b : Body) (kw : Kwargs)
    : result (ndarray * ndarray) :=
  if bool_decide (limit ≤ distance a b)%Z
  then Raise (OtherError "KernelEvaluationFailure")
  else even_kernel a b kw.

(** A kernel whose arrays have two rows too many. *)
Definition tall_kernel (a b : Body) (kw : Kwargs)
    : result (ndarray * ndarray) :=
  Ok (full complex128 (nb_faces a + 2) (nb_faces b) (λ i j, i + j)%Z,
      full complex128 (nb_faces a + 2) (nb_faces b) (λ i j, i - j)%Z).

Definition failing (limit : Z) : Collaborators :=
  {| cast := demo_cast;
     uninitialised := λ k i j, (- 1 - Z.of_nat k)%Z;
     coord_mul := Z.mul;
     Body_copy := λ b, b;
     Body_mirror := demo_mirror;
     Body_translate := demo_translate;
     Body_build_matrices := failing_kernel limit |}.

Definition tall : Collaborators :=
  {| cast := demo_cast;
     uninitialised := λ k i j, (- 1 - Z.of_nat k)%Z;
     coord_mul := Z.mul;
     Body_copy := λ b, b;
     Body_mirror := demo_mirror;
     Body_translate := demo_translate;
     Body_build_matrices := tall_kernel |}.
End Demo.

(** * Facts about the array operations *)

Section ArrayFacts.
Context `{C : Collaborators}.

Lemma well_shaped_spec (a : ndarray) (r c : nat) :
  well_shaped a r c = true ↔
  nrows a = r ∧ ncols a = c ∧ length (cells a) = r ∧
  Forall (λ row, length row = c) (cells a).
Proof.
  unfold well_shaped. rewrite !andb_true_iff, !bool_decide_eq_true.
  rewrite forallb_forall, Forall_forall.
  setoid_rewrite bool_decide_eq_true. setoid_rewrite list_elem_of_In. tauto.
Qed.

Lemma well_shaped_row (a : ndarray) (r c i : nat) (row : list Val) :
  well_shaped a r c = true → cells a !! i = Some row → length row = c.
Proof.
  intros (_ & _ & _ & Hall)%well_shaped_spec Hrow.
  rewrite Forall_lookup in Hall. eauto.
Qed.

Lemma cell_is_Some (a : ndarray) (r c i j : nat) :
  well_shaped a r c = true → i < r → j < c → is_Some (cell a i j).
Proof.
  intros Ha Hi Hj. pose proof Ha as (_ & _ & Hlen & _)%well_shaped_spec.
  destruct (lookup_lt_is_Some_2 (cells a) i) as [row Hrow]; [lia|].
  unfold cell. rewrite Hrow. simpl.
  apply lookup_lt_is_Some_2. rewrite (well_shaped_row a r c i row); auto.
Qed.

Lemma cell_None_row (a : ndarray) (r c i j : nat) :
  well_shaped a r c = true → r ≤ i → cell a i j = None.
Proof.
  intros (_ & _ & Hlen & _)%well_shaped_spec Hi. unfold cell.
  rewrite (lookup_ge_None_2 (cells a) i); [done | lia].
Qed.

Lemma cell_None_col (a : ndarray) (r c i j : nat) :
  well_shaped a r c = true → c ≤ j → cell a i j = None.
Proof.
  intros Ha Hj. unfold cell. destruct (cells a !! i) as [row|] eqn:Hrow; [|done].
  simpl. apply lookup_ge_None_2. rewrite (well_shaped_row a r c i row); auto.
Qed.

(** Two arrays of the same dtype and shape with the same entries are the
    same array. *)
Lemma ndarray_ext (a b : ndarray) (r c : nat) :
  well_shaped a r c = true → well_shaped b r c = true →
  dtype a = dtype b →
  (∀ i j, i < r → j < c → cell a i j = cell b i j) →
  a = b.
Proof.
  intros Ha Hb Hdt Hcells.
  pose proof Ha as (Hra & Hca & Hla & _)%well_shaped_spec.
  pose proof Hb as (Hrb & Hcb & Hlb & _)%well_shaped_spec.
  destruct a as [da ra ca xa], b as [db rb cb xb]; simpl in *. subst.
  f_equal. apply list_eq. intros i.
  destruct (decide (i < length xa)) as [Hi|Hi].
  - destruct (lookup_lt_is_Some_2 xa i Hi) as [rowa Hrowa].
    destruct (lookup_lt_is_Some_2 xb i) as [rowb Hrowb]; [lia|].
    rewrite Hrowa, Hrowb. f_equal. apply list_eq. intros j.
    pose proof (well_shaped_row _ _ _ _ _ Ha Hrowa) as Hlena.
    pose proof (well_shaped_row _ _ _ _ _ Hb Hrowb) as Hlenb.
    destruct (decide (j < length rowa)) as [Hj|Hj].
    + assert (Hj' : j < length rowb) by lia. rewrite Hlenb in Hj'.
      specialize (Hcells i j Hi Hj'). unfold cell in Hcells. simpl in *.
      by rewrite Hrowa, Hrowb in Hcells.
    + rewrite !lookup_ge_None_2; [done | lia | lia].
  - rewrite !lookup_ge_None_2; [done | lia | lia].
Qed.

Lemma slice_bounds_le (s : slice) (len lo hi : nat) :
  slice_bounds s len = (lo, hi) → lo ≤ len ∧ hi ≤ len.
Proof. unfold slice_bounds. intros [= <- <-]. lia. Qed.

Lemma in_slice_spec (s : slice) (len lo hi i : nat) :
  slice_bounds s len = (lo, hi) →
  in_slice s len i = true ↔ lo ≤ i < hi.
Proof.
  intros Hb. unfold in_slice. rewrite Hb.
  rewrite andb_true_iff, !bool_decide_eq_true. tauto.
Qed.

Lemma np_empty_shaped (k r c : nat) (dt : Dtype) :
  well_shaped (np_empty k (r, c) dt) r c = true.
Proof.
  apply well_shaped_spec. simpl. rewrite length_fmap, length_seq.
  repeat split. rewrite Forall_fmap. apply Forall_forall. intros i _. simpl.
  by rewrite length_fmap, length_seq.
Qed.

Lemma getitem_dtype (a : ndarray) (b : block) : dtype (getitem a b) = dtype a.
Proof.
  unfold getitem. by destruct (slice_bounds b.1 _), (slice_bounds b.2 _).
Qed.

Lemma getitem_shaped (a : ndarray) (b : block) (r c r0 r1 c0 c1 : nat) :
  well_shaped a r c = true →
  slice_bounds b.1 r = (r0, r1) → slice_bounds b.2 c = (c0, c1) →
  well_shaped (getitem a b) (r1 - r0) (c1 - c0) = true.
Proof.
  intros Ha Hr Hc.
  pose proof Ha as (Hnr & Hnc & Hlen & Hall)%well_shaped_spec.
  apply slice_bounds_le in Hr as Hr'. apply slice_bounds_le in Hc as Hc'.
  unfold getitem. rewrite Hnr, Hnc, Hr, Hc.
  apply well_shaped_spec. simpl.
  rewrite length_fmap, length_take, length_drop. repeat split; [lia|].
  rewrite Forall_fmap. apply Forall_take, Forall_drop.
  eapply Forall_impl; [exact Hall|]. intros row Hrow. simpl in *.
  rewrite length_take, length_drop. lia.
Qed.

Lemma getitem_cell (a : ndarray) (b : block) (r c r0 r1 c0 c1 i j : nat) :
  well_shaped a r c = true →
  slice_bounds b.1 r = (r0, r1) → slice_bounds b.2 c = (c0, c1) →
  i < r1 - r0 → j < c1 - c0 →
  cell (getitem a b) i j = cell a (r0 + i) (c0 + j).
Proof.
  intros Ha Hr Hc Hi Hj.
  pose proof Ha as (Hnr & Hnc & Hlen & Hall)%well_shaped_spec.
  unfold getitem. rewrite Hnr, Hnc, Hr, Hc. unfold cell. simpl.
  rewrite list_lookup_fmap, lookup_take, lookup_drop.
  destruct (decide (i < r1 - r0)); [|lia].
  destruct (cells a !! (r0 + i)) as [row|]; [|done]. simpl.
  rewrite lookup_take, lookup_drop. by destruct (decide (j < c1 - c0)); [|lia].
Qed.

Lemma broadcastable_refl (n : nat) : broadcastable n n = true.
Proof. unfold broadcastable. by rewrite bool_decide_eq_true_2. Qed.

Lemma source_row_exact (v : ndarray) (h k : nat) :
  nrows v = h → source_row v h k = default [] (cells v !! k).
Proof. intros Hv. unfold source_row. by rewrite bool_decide_eq_true_2. Qed.

Lemma stretch_exact (v : ndarray) (w : nat) (row : list Val) :
  ncols v = w → stretch v w row = row.
Proof. intros Hv. unfold stretch. by rewrite bool_decide_eq_true_2. Qed.

(** A slice assignment of a value that has exactly the shape of the
    block succeeds, keeps dtype and shape, overwrites the block with the
    converted value and leaves every other entry alone. *)
Lemma setitem_exact (a v : ndarray) (b : block) (r c r0 r1 c0 c1 : nat) :
  well_shaped a r c = true →
  slice_bounds b.1 r = (r0, r1) → slice_bounds b.2 c = (c0, c1) →
  well_shaped v (r1 - r0) (c1 - c0) = true →
  ∃ a', setitem a b v = Ok a' ∧
        well_shaped a' r c = true ∧
        dtype a' = dtype a ∧
        ∀ i j, cell a' i j =
               if in_slice b.1 r i && in_slice b.2 c j
               then convert (dtype v) (dtype a) <$> cell v (i - r0) (j - c0)
               else cell a i j.
Proof.
  intros Ha Hr Hc Hv.
  pose proof Ha as (Hnr & Hnc & Hlen & Hall)%well_shaped_spec.
  pose proof Hv as (Hvr & Hvc & Hvlen & Hvall)%well_shaped_spec.
  apply slice_bounds_le in Hr as Hr'. apply slice_bounds_le in Hc as Hc'.
  unfold setitem. rewrite Hnr, Hnc, Hr, Hc.
  rewrite Hvr, Hvc, !broadcastable_refl. simpl.
  eexists. split; [reflexivity|]. split; [|split; [done|]].
  - apply well_shaped_spec. simpl. rewrite length_imap. repeat split; try done.
    apply Forall_lookup. intros i row. rewrite list_lookup_imap.
    destruct (cells a !! i) as [row0|] eqn:Hrow0; [|done]. simpl. intros [= <-].
    pose proof (well_shaped_row _ _ _ _ _ Ha Hrow0) as Hlen0.
    case_bool_decide as Hin; [|done].
    rewrite !length_app, length_fmap, length_take, length_drop.
    rewrite stretch_exact, source_row_exact by done.
    destruct (lookup_lt_is_Some_2 (cells v) (i - r0)) as [vrow Hvrow]; [lia|].
    rewrite Hvrow. simpl.
    rewrite (well_shaped_row _ _ _ _ _ Hv Hvrow). lia.
  - intros i j. unfold cell at 1. simpl. rewrite list_lookup_imap.
    destruct (in_slice b.1 r i) eqn:Hi; simpl.
    + apply (in_slice_spec _ _ _ _ _ Hr) in Hi.
      destruct (lookup_lt_is_Some_2 (cells a) i) as [row0 Hrow0]; [lia|].
      pose proof (well_shaped_row _ _ _ _ _ Ha Hrow0) as Hlen0.
      unfold cell. rewrite Hrow0. simpl.
      rewrite bool_decide_eq_true_2 by done.
      rewrite stretch_exact, source_row_exact by done.
      destruct (lookup_lt_is_Some_2 (cells v) (i - r0)) as [vrow Hvrow]; [lia|].
      pose proof (well_shaped_row _ _ _ _ _ Hv Hvrow) as Hvlen0.
      rewrite Hvrow. simpl.
      destruct (in_slice b.2 c j) eqn:Hj.
      * apply (in_slice_spec _ _ _ _ _ Hc) in Hj.
        rewrite lookup_app_r by (rewrite length_take; lia).
        rewrite length_take, lookup_app_l by (rewrite length_fmap; lia).
        rewrite list_lookup_fmap. do 2 f_equal. lia.
      * assert (Hj' : ¬ (c0 ≤ j < c1)).
        { intros Hj'. apply (in_slice_spec _ _ _ _ _ Hc) in Hj'. congruence. }
        destruct (decide (j < c0)).
        -- rewrite lookup_app_l by (rewrite length_take; lia).
           rewrite lookup_take. by destruct (decide (j < c0)); [|lia].
        -- rewrite lookup_app_r by (rewrite length_take; lia).
           rewrite lookup_app_r by (rewrite length_take, length_fmap; lia).
           rewrite length_take, length_fmap, lookup_drop. f_equal. lia.
    + assert (Hi' : ¬ (r0 ≤ i < r1)).
      { intros Hi'. apply (in_slice_spec _ _ _ _ _ Hr) in Hi'. congruence. }
      unfold cell. destruct (cells a !! i) as [row0|]; [|done]. simpl.
      by rewrite bool_decide_eq_false_2.
Qed.
End ArrayFacts.

(** * Facts about computations *)

Section MonadFacts.
Context `{C : Collaborators}.

Lemma bind_ok {A B} (m : M A) (f : A → M B) (log log' : list Call) (a : A) :
  m log = (Ok a, log') → (m ≫= f) log = f a log'.
Proof. intros H. unfold mbind, M_bind. by rewrite H. Qed.

Lemma bind_raise {A B} (m : M A) (f : A → M B) (log log' : list Call) (e : exn) :
  m log = (Raise e, log') → (m ≫= f) log = (Raise e, log').
Proof. intros H. unfold mbind, M_bind. by rewrite H. Qed.

Lemma bind_assoc {A B D} (m : M A) (f : A → M B) (g : B → M D)
    (log : list Call) :
  ((m ≫= f) ≫= g) log = (m ≫= (λ x, f x ≫= g)) log.
Proof. unfold mbind, M_bind. by destruct (m log) as [[a|e] log']. Qed.

Lemma subscript_ok {A} (l : list A) (i : nat) (x : A) (log : list Call) :
  l !! i = Some x → subscript l i log = (Ok x, log).
Proof. intros H. unfold subscript. by rewrite H. Qed.

(** A loop whose body keeps an invariant indexed by the number of
    iterations done runs to completion and establishes the invariant at
    the length of the list. *)
Lemma foldM_invariant {A B} (I : nat → A → list Call → Prop)
    (f : A → B → M A) (l : list B) (a : A) (log : list Call) :
  I 0 a log →
  (∀ k x a log, l !! k = Some x → I k a log →
     ∃ a' log', f a x log = (Ok a', log') ∧ I (S k) a' log') →
  ∃ a' log', foldM f a l log = (Ok a', log') ∧ I (length l) a' log'.
Proof.
  revert I a log. induction l as [|x l IH]; intros I a log H0 Hstep.
  - by exists a, log.
  - destruct (Hstep 0 x a log eq_refl H0) as (a1 & log1 & Hf & H1).
    destruct (IH (λ k, I (S k)) a1 log1 H1) as (a' & log' & Hfold & Hend).
    { intros k y a2 log2 Hy. by apply (Hstep (S k)). }
    exists a', log'. split; [|done]. simpl. by rewrite (bind_ok _ _ _ _ _ Hf).
Qed.

Lemma convert_same (dt : Dtype) (x : Val) : convert dt dt x = x.
Proof. unfold convert. by destruct (decide (dt = dt)). Qed.

Lemma call_kernel_ok (a b : Body) (kwargs : Kwargs) (log : list Call)
    (pair : ndarray * ndarray) :
  Body_build_matrices a b kwargs = Ok pair →
  call_kernel a b kwargs log = (Ok pair, log ++ [(a, b, kwargs)]).
Proof. intros H. unfold call_kernel. by rewrite H. Qed.

(** The two assignments of a tuple unpacking. *)
Lemma assign_pair_ok (S V s v S' V' : ndarray) (b : block) (log : list Call) :
  setitem S b s = Ok S' → setitem V b v = Ok V' →
  assign_pair (S, V) b (s, v) log = (Ok (S', V'), log).
Proof.
  intros HS HV. unfold assign_pair, mbind, M_bind, lift. cbn [fst snd].
  by rewrite HS, HV.
Qed.
End MonadFacts.

(** * Facts about the block grid *)

Section Offsets.

Lemma accumulate_from_replicate (acc m f : nat) :
  accumulate_from acc (replicate m f) = (λ k, acc + S k * f) <$> seq 0 m.
Proof.
  revert acc. induction m as [|m IH]; intros acc; [done|].
  simpl. f_equal; [lia|]. rewrite IH, <- fmap_S_seq, <- list_fmap_compose.
  apply list_fmap_ext. intros _ k _. simpl. lia.
Qed.

Lemma offsets_replicate (m f : nat) :
  accumulate (0 :: replicate m f) = (λ k, k * f) <$> seq 0 (S m).
Proof.
  unfold accumulate. simpl. f_equal.
  rewrite accumulate_from_replicate, <- fmap_S_seq, <- list_fmap_compose.
  apply list_fmap_ext. intros _ k _. simpl. lia.
Qed.

Lemma ranges_replicate (m f : nat) :
  let offsets := accumulate (0 :: replicate m f) in
  zip offsets (tail offsets) = (λ k, (k * f, S k * f)) <$> seq 0 m.
Proof.
  cbv zeta. rewrite offsets_replicate. apply list_eq. intros k.
  rewrite lookup_zip_with, list_lookup_fmap. simpl tail.
  rewrite <- fmap_S_seq, <- list_fmap_compose.
  rewrite !list_lookup_fmap.
  destruct (decide (k < m)) as [Hk|Hk].
  - rewrite (lookup_seq_lt 0 m k Hk). rewrite (lookup_seq_lt 0 (S m) k) by lia.
    done.
  - rewrite (lookup_seq_ge 0 m k) by lia. simpl.
    by destruct ((0 :: seq 1 m) !! k).
Qed.
End Offsets.

(** * Facts about the constructors *)

Section ConstructorFacts.
Context `{C : Collaborators}.

Lemma length_app_string (s1 s2 : string) :
  String.length (s1 +:+ s2) = String.length s1 + String.length s2.
Proof.
  induction s1 as [|a s1 IH]; [done|].
  change (String a s1 +:+ s2) with (String a (s1 +:+ s2)). simpl. by rewrite IH.
Qed.

Lemma foldl_append {A B} (g : B → A) (l : list B) (init : list A) :
  foldl (λ acc x, acc ++ [g x]) init l = init ++ (g <$> l).
Proof.
  revert init. induction l as [|x l IH]; intros init; simpl.
  - by rewrite app_nil_r.
  - by rewrite IH, <- app_assoc.
Qed.

(** The loop that builds the degrees of freedom of a composite: every
    entry of the original reappears under the prefixed key, transformed. *)
Lemma renamed_dofs_lookup (prefix : string)
    (g : list DofRow → list DofRow) (d : gmap string (list DofRow))
    (key : string) :
  map_fold (λ name dof (acc : gmap string (list DofRow)),
              <[prefix +:+ name := g dof]> acc) ∅ d !! (prefix +:+ key)
  = g <$> d !! key.
Proof.
  revert key.
  apply (map_fold_weak_ind (λ r (m : gmap string (list DofRow)),
           ∀ key, r !! (prefix +:+ key) = g <$> m !! key)).
  - intros key. by rewrite !lookup_empty.
  - intros i x m r Hi IH key. destruct (decide (i = key)) as [->|Hne].
    + by rewrite !lookup_insert_eq.
    + rewrite !lookup_insert_ne; [apply IH | done |].
      intros Heq. by apply String.app_inj in Heq.
Qed.

Lemma TranslationalSymmetry_init_ok (body_slice : Body)
    (translation : list Coord) (nb_repetitions : pyvalue) (n : Z) :
  as_int nb_repetitions = Some n → (1 ≤ n)%Z → length translation = 3 →
  let body_slice' :=
    set_nb_matrices_to_keep body_slice (nb_matrices_to_keep body_slice * n) in
  TranslationalSymmetry_init body_slice translation nb_repetitions =
    (body_slice',
     Ok {| coll_name := "repeated_" +:+ name body_slice;
           subbodies := body_slice' ::
             (new_slice body_slice' translation n <$> seqZ 1 n);
           coll_dofs :=
             map_fold (λ name dof (acc : gmap string (list DofRow)),
                 <["translated_" +:+ name := np_concatenate (list_mul [dof] n)]> acc)
               ∅ (dofs body_slice) |}).
Proof.
  intros Hint Hn Hlen. unfold TranslationalSymmetry_init. rewrite Hint.
  rewrite !bool_decide_eq_true_2 by done. simpl.
  by rewrite foldl_append.
Qed.
End ConstructorFacts.

(** * Filling and copying blocks *)

Section Blocks.
Context `{C : Collaborators}.

Lemma slice_bounds_lower (h n : nat) :
  h ≤ n → slice_bounds (Slice None (Some h)) n = (0, h).
Proof. intros. unfold slice_bounds. simpl. f_equal; lia. Qed.

Lemma slice_bounds_upper (h n : nat) :
  h ≤ n → slice_bounds (Slice (Some h) None) n = (h, n).
Proof. intros. unfold slice_bounds. simpl. f_equal; lia. Qed.

Lemma slice_bounds_both (i j n : nat) :
  i ≤ n → j ≤ n → slice_bounds (Slice (Some i) (Some j)) n = (i, j).
Proof. intros. unfold slice_bounds. simpl. f_equal; lia. Qed.

(** Writing a value of the exact shape into a block: inside the block the
    converted value, outside the old entries. *)
Lemma setitem_block (a v : ndarray) (b : block) (r c r0 r1 c0 c1 : nat) :
  well_shaped a r c = true →
  slice_bounds b.1 r = (r0, r1) → slice_bounds b.2 c = (c0, c1) →
  well_shaped v (r1 - r0) (c1 - c0) = true →
  ∃ a', setitem a b v = Ok a' ∧
        well_shaped a' r c = true ∧
        dtype a' = dtype a ∧
        (∀ i j, r0 ≤ i < r1 → c0 ≤ j < c1 →
           cell a' i j = convert (dtype v) (dtype a) <$> cell v (i - r0) (j - c0)) ∧
        (∀ i j, ¬ (r0 ≤ i < r1 ∧ c0 ≤ j < c1) → cell a' i j = cell a i j).
Proof.
  intros Ha Hr Hc Hv.
  destruct (setitem_exact a v b r c r0 r1 c0 c1) as (a' & Hset & Ha' & Hdt & Hcell);
    try done.
  exists a'. repeat split; try done.
  - intros i j Hi Hj. rewrite Hcell.
    apply (in_slice_spec _ _ _ _ _ Hr) in Hi.
    apply (in_slice_spec _ _ _ _ _ Hc) in Hj. by rewrite Hi, Hj.
  - intros i j Hout. rewrite Hcell.
    destruct (in_slice b.1 r i) eqn:Hi; [|done].
    destruct (in_slice b.2 c j) eqn:Hj; [|done].
    apply (in_slice_spec _ _ _ _ _ Hr) in Hi.
    apply (in_slice_spec _ _ _ _ _ Hc) in Hj. tauto.
Qed.

(** [a[dst] = a[src]] for two blocks of the same extents. *)
Lemma copy_block (a : ndarray) (dst src : block)
    (r c r0 r1 c0 c1 r0' r1' c0' c1' : nat) :
  well_shaped a r c = true →
  slice_bounds dst.1 r = (r0, r1) → slice_bounds dst.2 c = (c0, c1) →
  slice_bounds src.1 r = (r0', r1') → slice_bounds src.2 c = (c0', c1') →
  r1' - r0' = r1 - r0 → c1' - c0' = c1 - c0 →
  ∃ a', setitem a dst (getitem a src) = Ok a' ∧
        well_shaped a' r c = true ∧
        dtype a' = dtype a ∧
        (∀ i j i' j', r0 ≤ i < r1 → c0 ≤ j < c1 →
           i' = r0' + (i - r0) → j' = c0' + (j - c0) →
           cell a' i j = cell a i' j') ∧
        (∀ i j, ¬ (r0 ≤ i < r1 ∧ c0 ≤ j < c1) → cell a' i j = cell a i j).
Proof.
  intros Ha Hr Hc Hr' Hc' Hh Hw.
  pose proof (getitem_shaped a src r c r0' r1' c0' c1' Ha Hr' Hc') as Hv.
  rewrite Hh, Hw in Hv.
  destruct (setitem_block a (getitem a src) dst r c r0 r1 c0 c1)
    as (a' & Hset & Ha' & Hdt & Hin & Hout); try done.
  exists a'. repeat split; try done.
  intros i j i' j' Hi Hj -> ->. rewrite (Hin i j Hi Hj).
  rewrite getitem_dtype.
  rewrite (getitem_cell a src r c r0' r1' c0' c1') by (done || lia).
  destruct (cell a _ _); simpl; [|done]. by rewrite convert_same.
Qed.
End Blocks.

(** * The accelerated path of a reflection composite *)

Section ReflectionFacts.
Context `{C : Collaborators}.

Lemma half_double (f : nat) : 2 * f / 2 = f.
Proof. rewrite Nat.mul_comm. by apply Nat.div_mul. Qed.

(** The four slice assignments made on one of the two matrices. *)
Lemma reflection_chain (A0 s00 s01 : ndarray) (f : nat) :
  well_shaped A0 (2 * f) (2 * f) = true → dtype A0 = complex64 →
  well_shaped s00 f f = true → well_shaped s01 f f = true →
  ∃ A1 A2 A3 A4,
    setitem A0 (top_left (2 * f)) s00 = Ok A1 ∧
    setitem A1 (top_right (2 * f)) s01 = Ok A2 ∧
    setitem A2 (bottom_left (2 * f)) (getitem A2 (top_right (2 * f))) = Ok A3 ∧
    setitem A3 (bottom_right (2 * f)) (getitem A3 (top_left (2 * f))) = Ok A4 ∧
    assembled A4 [s00; s01] f.
Proof.
  intros HA0 Hdt0 Hs00 Hs01.
  unfold top_left, top_right, bottom_left, bottom_right. rewrite half_double.
  assert (Hlo : slice_bounds (Slice None (Some f)) (2 * f) = (0, f))
    by (apply slice_bounds_lower; lia).
  assert (Hup : slice_bounds (Slice (Some f) None) (2 * f) = (f, 2 * f))
    by (apply slice_bounds_upper; lia).
  destruct (setitem_block A0 s00 (Slice None (Some f), Slice None (Some f))
              (2 * f) (2 * f) 0 f 0 f)
    as (A1 & H1 & HA1 & Hdt1 & Hin1 & Hout1); try done.
  { by replace (f - 0) with f by lia. }
  destruct (setitem_block A1 s01 (Slice None (Some f), Slice (Some f) None)
              (2 * f) (2 * f) 0 f f (2 * f))
    as (A2 & H2 & HA2 & Hdt2 & Hin2 & Hout2); try done.
  { by replace (f - 0) with f by lia; replace (2 * f - f) with f by lia. }
  destruct (copy_block A2 (Slice (Some f) None, Slice None (Some f))
              (Slice None (Some f), Slice (Some f) None)
              (2 * f) (2 * f) f (2 * f) 0 f 0 f f (2 * f))
    as (A3 & H3 & HA3 & Hdt3 & Hin3 & Hout3); try done; try lia.
  destruct (copy_block A3 (Slice (Some f) None, Slice (Some f) None)
              (Slice None (Some f), Slice None (Some f))
              (2 * f) (2 * f) f (2 * f) f (2 * f) 0 f 0 f)
    as (A4 & H4 & HA4 & Hdt4 & Hin4 & Hout4); try done; try lia.
  exists A1, A2, A3, A4. repeat split; try done.
  - congruence.
  - intros i j s a b Hi Hj Hs Ha Hb. rewrite Hdt0 in Hin1. rewrite Hdt1, Hdt0 in Hin2.
    destruct i as [|[|i]], j as [|[|j]]; simpl in Hi, Hj; try lia;
      simpl in Hs; injection Hs as <-.
    + rewrite Hout4, Hout3, Hout2 by lia. rewrite Hin1 by lia.
      do 2 f_equal; lia.
    + rewrite Hout4, Hout3 by lia. rewrite Hin2 by lia.
      do 2 f_equal; lia.
    + rewrite Hout4 by lia.
      rewrite (Hin3 _ _ a (1 * f + b)) by lia. rewrite Hin2 by lia.
      do 2 f_equal; lia.
    + rewrite (Hin4 _ _ a b) by lia.
      rewrite Hout3, Hout2 by lia. rewrite Hin1 by lia.
      do 2 f_equal; lia.
Qed.

Lemma reflection_accelerated (c : Collection) (g0 g1 : Body) (f : nat)
    (kwargs : Kwargs) (log : list Call) (s00 v00 s01 v01 : ndarray) :
  subbodies c = [g0; g1] → nb_faces g0 = f → nb_faces g1 = f →
  Body_build_matrices g0 g0 kwargs = Ok (s00, v00) →
  Body_build_matrices g0 g1 kwargs = Ok (s01, v01) →
  well_shaped s00 f f = true → well_shaped v00 f f = true →
  well_shaped s01 f f = true → well_shaped v01 f f = true →
  ∃ S V,
    ReflectionSymmetry_build_matrices c Self false kwargs log =
      (Ok (S, V), log ++ [(g0, g0, kwargs); (g0, g1, kwargs)]) ∧
    assembled S [s00; s01] f ∧ assembled V [v00; v01] f.
Proof.
  intros Hsub Hf0 Hf1 Hk00 Hk01 Hs00 Hv00 Hs01 Hv01.
  assert (Hn : coll_nb_faces c = 2 * f).
  { unfold coll_nb_faces. rewrite Hsub. simpl. lia. }
  destruct (reflection_chain (np_empty 0 (2 * f, 2 * f) complex64) s00 s01 f)
    as (S1 & S2 & S3 & S4 & HS1 & HS2 & HS3 & HS4 & HS); try done.
  { apply np_empty_shaped. }
  destruct (reflection_chain (np_empty 1 (2 * f, 2 * f) complex64) v00 v01 f)
    as (V1 & V2 & V3 & V4 & HV1 & HV2 & HV3 & HV4 & HV); try done.
  { apply np_empty_shaped. }
  exists S4, V4. split; [|done].
  assert (Hg0 : subbodies c !! 0 = Some g0) by (by rewrite Hsub).
  assert (Hg1 : subbodies c !! 1 = Some g1) by (by rewrite Hsub).
  unfold ReflectionSymmetry_build_matrices.
  cbn [is_self negb andb deref body_nb_faces]. rewrite Hn.
  do 2 (erewrite bind_ok by (by apply subscript_ok)).
  erewrite bind_ok by (by apply call_kernel_ok).
  erewrite bind_ok by (by apply assign_pair_ok).
  do 2 (erewrite bind_ok by (by apply subscript_ok)).
  erewrite bind_ok by (by apply call_kernel_ok).
  erewrite bind_ok by (by apply assign_pair_ok).
  erewrite bind_ok by (by apply assign_pair_ok).
  erewrite bind_ok by (by apply assign_pair_ok).
  by rewrite <- app_assoc.
Qed.
End ReflectionFacts.

(** * The accelerated path of a translation composite *)

Section TranslationFacts.
Context `{C : Collaborators}.

Lemma block_index_bounds (f i a : nat) :
  a < f → i * f ≤ i * f + a < S i * f.
Proof. intros. simpl. lia. Qed.

Lemma block_index_inj (f i i' a : nat) :
  a < f → i * f ≤ i' * f + a < S i * f → i' = i.
Proof.
  intros Ha [Hlo Hhi]. simpl in Hhi.
  destruct (decide (i' < i)) as [Hlt|Hge].
  - assert (S i' * f ≤ i * f) by (apply Nat.mul_le_mono_r; lia).
    simpl in *. lia.
  - destruct (decide (i < i')) as [Hgt|Hle]; [|lia].
    assert (S i * f ≤ i' * f) by (apply Nat.mul_le_mono_r; lia).
    simpl in *. lia.
Qed.

Lemma uniform_block_bounds (m f i j : nat) :
  i < m → j < m →
  slice_bounds (uniform_block f i j).1 (m * f) = (i * f, S i * f) ∧
  slice_bounds (uniform_block f i j).2 (m * f) = (j * f, S j * f).
Proof.
  intros Hi Hj.
  assert (S i * f ≤ m * f) by (apply Nat.mul_le_mono_r; lia).
  assert (S j * f ≤ m * f) by (apply Nat.mul_le_mono_r; lia).
  split; apply slice_bounds_both; simpl in *; lia.
Qed.

(** One iteration of the first loop, on one of the two matrices. *)
Lemma first_line_step (m f k : nat) (line : list ndarray) (A s : ndarray) :
  first_line_filled m f k line A → k < m →
  line !! k = Some s → well_shaped s f f = true →
  ∃ A', setitem A (uniform_block f 0 k) s = Ok A' ∧
        first_line_filled m f (S k) line A'.
Proof.
  intros (HA & Hdt & Hdone) Hk Hs Hshape.
  destruct (uniform_block_bounds m f 0 k) as [Hr Hc]; [lia | done |].
  destruct (setitem_block A s (uniform_block f 0 k) (m * f) (m * f)
              (0 * f) (1 * f) (k * f) (S k * f))
    as (A' & Hset & HA' & Hdt' & Hin & Hout); try done.
  { replace (1 * f - 0 * f) with f by lia.
    by replace (S k * f - k * f) with f by (simpl; lia). }
  exists A'. split; [done|]. split; [done|]. split; [congruence|].
  intros j s' a b Hj Hs' Ha Hb. destruct (decide (j = k)) as [->|Hne].
  - assert (s' = s) as -> by congruence.
    rewrite Hin by (simpl; lia). rewrite Hdt. do 2 f_equal; lia.
  - rewrite Hout; [apply Hdone; (done || lia)|].
    intros [_ Hcol]. apply block_index_inj in Hcol; [lia | done].
Qed.

(** One iteration of the inner copy loop, on one of the two matrices. *)
Lemma copy_step (m f i j : nat) (A1 A : ndarray) :
  lines_copied m f i j A1 A → 1 ≤ i < m → j < m →
  ∃ A', setitem A (uniform_block f i j)
          (getitem A (uniform_block f 0 (Z.abs_nat (Z.of_nat j - Z.of_nat i))))
        = Ok A' ∧
        lines_copied m f i (S j) A1 A'.
Proof.
  intros (HA & Hdt & Hfirst & Hdone) Hi Hj.
  set (d := Z.abs_nat (Z.of_nat j - Z.of_nat i)).
  assert (Hd : d < m) by (unfold d; lia).
  destruct (uniform_block_bounds m f i j) as [Hr Hc]; [lia | done |].
  destruct (uniform_block_bounds m f 0 d) as [Hr' Hc']; [lia | done |].
  destruct (copy_block A (uniform_block f i j) (uniform_block f 0 d)
              (m * f) (m * f) (i * f) (S i * f) (j * f) (S j * f)
              (0 * f) (1 * f) (d * f) (S d * f))
    as (A' & Hset & HA' & Hdt' & Hin & Hout); try done; try (simpl; lia).
  exists A'. split; [done|]. split; [done|]. split; [congruence|]. split.
  - intros a x Ha. rewrite Hout; [by apply Hfirst|].
    intros [Hrow _].
    assert (1 * f ≤ i * f) by (apply Nat.mul_le_mono_r; lia). lia.
  - intros i' j' a b Hij Ha Hb.
    destruct (decide (i' = i ∧ j' = j)) as [[-> ->]|Hne].
    + rewrite (Hin _ _ a (d * f + b)); [by apply Hfirst | | | |];
        simpl; lia.
    + rewrite Hout; [apply Hdone; (done || lia)|].
      intros [Hrow Hcol].
      apply block_index_inj in Hrow; [|done].
      apply block_index_inj in Hcol; [|done]. lia.
Qed.

Lemma lines_copied_next (m f i : nat) (A1 A : ndarray) :
  lines_copied m f i m A1 A → lines_copied m f (S i) 0 A1 A.
Proof.
  intros (HA & Hdt & Hfirst & Hdone). repeat split; try done.
  intros i' j' a b Hij Ha Hb. apply Hdone; [|done|done].
  destruct Hij as [[Hi Hj]|[_ Hj]]; [|lia].
  destruct (decide (i' = i)); [right|left]; lia.
Qed.

Lemma lines_copied_start (m f : nat) (line : list ndarray) (A1 : ndarray) :
  first_line_filled m f m line A1 → lines_copied m f 1 0 A1 A1.
Proof.
  intros (HA & Hdt & _). repeat split; try done.
  intros i' j' a b [[Hi _]|[_ Hj]]; lia.
Qed.

Lemma assembled_of_copied (f : nat) (line : list ndarray) (A1 A : ndarray) :
  first_line_filled (length line) f (length line) line A1 →
  lines_copied (length line) f (length line) 0 A1 A →
  assembled A line f.
Proof.
  intros (_ & _ & Hline) (HA & Hdt & Hfirst & Hdone).
  repeat split; try done.
  intros i j s a b Hi Hj Hs Ha Hb.
  assert (Hd : Z.abs_nat (Z.of_nat j - Z.of_nat i) < length line) by lia.
  destruct (decide (i = 0)) as [->|Hne].
  - replace (Z.abs_nat (Z.of_nat j - Z.of_nat 0)) with j in Hs by lia.
    replace (0 * f + a) with a by lia.
    rewrite Hfirst by done. by apply Hline.
  - rewrite Hdone; [|left; lia|done|done]. by apply Hline.
Qed.

Lemma matrix_blocks_uniform (c : Collection) (m f : nat) :
  nb_faces <$> subbodies c = replicate m f →
  matrix_blocks c = (λ i, uniform_block f i <$> seq 0 m) <$> seq 0 m.
Proof.
  intros Hfaces. unfold matrix_blocks. rewrite Hfaces.
  pose proof (ranges_replicate m f) as Hranges. cbv zeta in Hranges.
  cbv zeta. rewrite Hranges, <- !list_fmap_compose.
  apply list_fmap_ext. intros _ i _. simpl.
  rewrite <- list_fmap_compose. by apply list_fmap_ext.
Qed.

Lemma matrix_blocks_line (c : Collection) (m f i : nat) :
  nb_faces <$> subbodies c = replicate m f → i < m →
  matrix_blocks c !! i = Some (uniform_block f i <$> seq 0 m).
Proof.
  intros Hfaces Hi. rewrite (matrix_blocks_uniform c m f Hfaces).
  by rewrite list_lookup_fmap, lookup_seq_lt.
Qed.

Lemma uniform_line_lookup (m f i j : nat) :
  j < m → (uniform_block f i <$> seq 0 m) !! j = Some (uniform_block f i j).
Proof. intros Hj. by rewrite list_lookup_fmap, lookup_seq_lt. Qed.

(** States that the loop at the head of the goal runs to completion with
    the invariant [I]; leaves the initial case and the step to prove. *)
Ltac run_loop I H :=
  lazymatch goal with
  | |- context [(foldM ?body ?init ?l ≫= _) ?lg] =>
      assert (H : ∃ a' log', foldM body init l lg = (Ok a', log') ∧
                             I (length l) a' log');
      [apply (foldM_invariant I)|]
  | |- context [foldM ?body ?init ?l ?lg] =>
      assert (H : ∃ a' log', foldM body init l lg = (Ok a', log') ∧
                             I (length l) a' log');
      [apply (foldM_invariant I)|]
  end.

Lemma translation_accelerated (c : Collection) (g0 : Body) (f : nat)
    (kwargs : Kwargs) (log : list Call) (pairs : list (ndarray * ndarray)) :
  subbodies c !! 0 = Some g0 →
  nb_faces <$> subbodies c = replicate (length (subbodies c)) f →
  Forall2 (λ g p, Body_build_matrices g0 g kwargs = Ok p ∧
                  well_shaped p.1 f f = true ∧ well_shaped p.2 f f = true)
          (subbodies c) pairs →
  ∃ S V,
    TranslationalSymmetry_build_matrices c Self false kwargs log =
      (Ok (S, V), log ++ ((λ g, (g0, g, kwargs)) <$> subbodies c)) ∧
    assembled S pairs.*1 f ∧ assembled V pairs.*2 f.
Proof.
  intros Hg0 Hfaces Hkernel.
  set (m := length (subbodies c)) in *.
  assert (Hm : 0 < m) by (apply lookup_lt_Some in Hg0; done).
  assert (Hlen : length pairs = m) by (symmetry; eapply Forall2_length; done).
  assert (Hn : coll_nb_faces c = m * f).
  { unfold coll_nb_faces. rewrite Hfaces. apply sum_list_replicate. }
  unfold TranslationalSymmetry_build_matrices.
  cbn [is_self negb andb deref body_nb_faces]. rewrite Hn.
  erewrite bind_ok by (apply subscript_ok, (matrix_blocks_line c m f 0); done).
  (* the first line of blocks *)
  run_loop (λ k (SV : ndarray * ndarray) (log' : list Call),
              first_line_filled m f k pairs.*1 SV.1 ∧
              first_line_filled m f k pairs.*2 SV.2 ∧
              log' = log ++ ((λ g, (g0, g, kwargs)) <$> take k (subbodies c)))
           Hloop.
  { simpl. rewrite app_nil_r.
    repeat split; try apply np_empty_shaped; intros; lia. }
  { intros k [blk body] [Sa Va] log' Hk (HS & HV & ->).
    apply lookup_zip_with_Some in Hk as (blk' & body' & [= <- <-] & Hblk & Hbody).
    assert (Hkm : k < m) by (by apply lookup_lt_Some in Hbody).
    rewrite uniform_line_lookup in Hblk by done. injection Hblk as <-.
    destruct (Forall2_lookup_l _ _ _ _ _ Hkernel Hbody)
      as ([s v] & Hp & Hcall & Hs & Hv).
    destruct (first_line_step m f k pairs.*1 Sa s HS) as (S' & HsetS & HS');
      [done | by rewrite list_lookup_fmap, Hp | done |].
    destruct (first_line_step m f k pairs.*2 Va v HV) as (V' & HsetV & HV');
      [done | by rewrite list_lookup_fmap, Hp | done |].
    exists (S', V'), (log ++ ((λ g, (g0, g, kwargs)) <$> take (S k) (subbodies c))).
    split; [|done].
    erewrite bind_ok by (by apply subscript_ok).
    erewrite bind_ok by (by apply call_kernel_ok).
    rewrite (assign_pair_ok _ _ _ _ _ _ _ _ HsetS HsetV).
    by rewrite (take_S_r _ _ _ Hbody), fmap_app, app_assoc. }
  destruct Hloop as ([S1 V1] & log1 & Hloop1 & HS1 & HV1 & Hlog1).
  rewrite (bind_ok _ _ _ _ _ Hloop1).
  rewrite length_zip_with, length_fmap, length_seq, Nat.min_id in HS1, HV1, Hlog1.
  rewrite firstn_all in Hlog1.
  (* the copies *)
  run_loop (λ k (SV : ndarray * ndarray) (log' : list Call),
              lines_copied m f (S k) 0 S1 SV.1 ∧
              lines_copied m f (S k) 0 V1 SV.2 ∧
              log' = log1)
           Hloop.
  { split; [|split; [|done]]; eapply lines_copied_start; done. }
  { intros k i [Sa Va] log' Hi (HS & HV & ->).
    apply lookup_seq in Hi as [-> Hk].
    rewrite (matrix_blocks_uniform c m f Hfaces), length_fmap, length_seq in Hk.
    erewrite bind_ok
      by (apply subscript_ok, (matrix_blocks_line c m f (1 + k)); (done || lia)).
    rewrite length_fmap, length_seq.
    run_loop (λ j (SV : ndarray * ndarray) (log' : list Call),
                lines_copied m f (1 + k) j S1 SV.1 ∧
                lines_copied m f (1 + k) j V1 SV.2 ∧
                log' = log1)
             Hinner.
    { done. }
    { intros j j' [S3 V3] log' Hj (HS3 & HV3 & ->).
      apply lookup_seq in Hj as [-> Hj]. simpl in Hj |- *.
      destruct (copy_step m f (S k) j S1 S3 HS3) as (S4 & HsetS & HS4);
        [lia | done |].
      destruct (copy_step m f (S k) j V1 V3 HV3) as (V4 & HsetV & HV4);
        [lia | done |].
      exists (S4, V4), log1. split; [|done].
      assert (Hd : Z.abs_nat (Z.of_nat j - Z.of_nat (S k)) < m) by lia.
      do 2 (
        erewrite bind_ok
          by (apply subscript_ok, (matrix_blocks_line c m f 0); done);
        erewrite bind_ok by (by apply subscript_ok, uniform_line_lookup);
        erewrite bind_ok
          by (apply subscript_ok, (matrix_blocks_line c m f (S k)); (done || lia));
        erewrite bind_ok by (by apply subscript_ok, uniform_line_lookup);
        erewrite bind_ok by (unfold lift; by f_equal)).
      done. }
    destruct Hinner as ([S' V'] & log3 & Hloop3 & HS' & HV' & Hlog3).
    rewrite length_seq in HS', HV'.
    exists (S', V'), log3. split; [done|].
    split; [|split]; [by apply lines_copied_next..|done]. }
  destruct Hloop as ([S2 V2] & log2 & Hloop2 & HS2 & HV2 & Hlog2).
  rewrite (bind_ok _ _ _ _ _ Hloop2).
  rewrite length_seq, (matrix_blocks_uniform c m f Hfaces), length_fmap, length_seq
    in HS2, HV2.
  replace (S (m - 1)) with m in HS2, HV2 by lia.
  exists S2, V2. split; [by rewrite Hlog2, Hlog1|].
  unfold m in *. rewrite <- Hlen in HS1, HV1, HS2, HV2.
  cbn [fst snd] in HS1, HV1, HS2, HV2.
  split.
  - apply (assembled_of_copied f pairs.*1 S1 S2); by rewrite length_fmap.
  - apply (assembled_of_copied f pairs.*2 V1 V2); by rewrite length_fmap.
Qed.
End TranslationFacts.

(** * Composites as the constructors build them *)

Section Composites.
Context `{C : Collaborators}.

Lemma reflection_generators (half half' : Body) (plane : Plane) (c : Collection) :
  faces_preserved →
  ReflectionSymmetry_init half plane = (half', Ok c) →
  ∃ other_half,
    subbodies c = [half'; other_half] ∧
    nb_faces half' = nb_faces half ∧ nb_faces other_half = nb_faces half.
Proof.
  intros (Hcopy & Hmirror & _) [= <- <-]. eexists. split; [reflexivity|].
  split; [done|]. simpl. by rewrite Hmirror, Hcopy.
Qed.

Lemma new_slice_nb_faces (body_slice : Body) (translation : list Coord) (n i : Z) :
  faces_preserved →
  nb_faces (new_slice body_slice translation n i) = nb_faces body_slice.
Proof. intros (Hcopy & _ & Htranslate). simpl. by rewrite Htranslate, Hcopy. Qed.

Lemma translation_generators (body_slice body_slice' : Body)
    (translation : list Coord) (nb_repetitions : pyvalue) (c : Collection) :
  faces_preserved →
  TranslationalSymmetry_init body_slice translation nb_repetitions
    = (body_slice', Ok c) →
  ∃ n, as_int nb_repetitions = Some n ∧ (1 ≤ n)%Z ∧
    subbodies c = body_slice' :: (new_slice body_slice' translation n <$> seqZ 1 n) ∧
    nb_faces <$> subbodies c
      = replicate (length (subbodies c)) (nb_faces body_slice).
Proof.
  intros Hfaces Hinit. unfold TranslationalSymmetry_init in Hinit.
  destruct (as_int nb_repetitions) as [n|] eqn:Hint; [|done].
  case_bool_decide as Hn; [|done]. case_bool_decide as Hlen; [|done].
  simpl in Hinit. rewrite foldl_append in Hinit. injection Hinit as <- <-.
  exists n. repeat split; try done. simpl. f_equal.
  rewrite length_fmap, <- list_fmap_compose.
  apply list_eq. intros k. rewrite list_lookup_fmap.
  destruct (seqZ 1 n !! k) as [i|] eqn:Hi; simpl.
  - apply lookup_lt_Some in Hi as Hk.
    rewrite lookup_replicate_2 by done.
    destruct Hfaces as (Hcopy & _ & Htranslate). by rewrite Htranslate, Hcopy.
  - symmetry. apply lookup_replicate_None. by apply lookup_ge_None in Hi.
Qed.

Lemma first_line_results (gs : list Body) (first : Body) (f : nat)
    (kwargs : Kwargs) :
  nb_faces first = f → Forall (λ g, nb_faces g = f) gs →
  forallb (kernel_ok kwargs first) gs = true →
  ∃ pairs,
    Forall2 (λ g p, Body_build_matrices first g kwargs = Ok p ∧
                    well_shaped p.1 f f = true ∧ well_shaped p.2 f f = true)
            gs pairs.
Proof.
  intros Hfirst Hfaces. induction Hfaces as [|g gs Hg _ IH]; intros Hok.
  - by exists [].
  - simpl in Hok. apply andb_true_iff in Hok as [Hk Hok].
    destruct (IH Hok) as (pairs & Hpairs).
    unfold kernel_ok in Hk. rewrite Hfirst, Hg in Hk.
    destruct (Body_build_matrices first g kwargs) as [[s v]|] eqn:Hcall; [|done].
    apply andb_true_iff in Hk as [Hs Hv].
    exists ((s, v) :: pairs). by constructor.
Qed.
End Composites.

(** * The accelerated paths on constructed composites *)

Section Accelerated.
Context `{C : Collaborators}.

Lemma reflection_runs (half half' : Body) (plane : Plane) (c : Collection)
    (kwargs : Kwargs) (log : list Call) :
  faces_preserved →
  ReflectionSymmetry_init half plane = (half', Ok c) →
  first_line_ok c kwargs = true →
  ∃ other_half s00 v00 s01 v01 S V,
    subbodies c = [half'; other_half] ∧
    Body_build_matrices half' half' kwargs = Ok (s00, v00) ∧
    Body_build_matrices half' other_half kwargs = Ok (s01, v01) ∧
    ReflectionSymmetry_build_matrices c Self false kwargs log =
      (Ok (S, V), log ++ [(half', half', kwargs); (half', other_half, kwargs)]) ∧
    assembled S [s00; s01] (nb_faces half) ∧
    assembled V [v00; v01] (nb_faces half).
Proof.
  intros Hfaces Hinit Hok.
  destruct (reflection_generators half half' plane c Hfaces Hinit)
    as (other_half & Hsub & Hf0 & Hf1).
  unfold first_line_ok in Hok. rewrite Hsub in Hok.
  destruct (first_line_results [half'; other_half] half' (nb_faces half) kwargs)
    as (pairs & Hpairs); [done | by repeat constructor | done |].
  apply Forall2_cons_inv_l in Hpairs as ([s00 v00] & pairs' & (H00 & Hs00 & Hv00) & Hpairs & ->).
  apply Forall2_cons_inv_l in Hpairs as ([s01 v01] & pairs'' & (H01 & Hs01 & Hv01) & Hpairs & ->).
  destruct (reflection_accelerated c half' other_half (nb_faces half) kwargs log
              s00 v00 s01 v01) as (S & V & Hrun & HS & HV); try done.
  by exists other_half, s00, v00, s01, v01, S, V.
Qed.

Lemma translation_runs (body_slice body_slice' : Body)
    (translation : list Coord) (nb_repetitions : pyvalue) (c : Collection)
    (kwargs : Kwargs) (log : list Call) :
  faces_preserved →
  TranslationalSymmetry_init body_slice translation nb_repetitions
    = (body_slice', Ok c) →
  first_line_ok c kwargs = true →
  ∃ pairs S V,
    length pairs = length (subbodies c) ∧
    TranslationalSymmetry_build_matrices c Self false kwargs log =
      (Ok (S, V), log ++ ((λ g, (body_slice', g, kwargs)) <$> subbodies c)) ∧
    assembled S pairs.*1 (nb_faces body_slice) ∧
    assembled V pairs.*2 (nb_faces body_slice).
Proof.
  intros Hfaces Hinit Hok.
  destruct (translation_generators _ _ _ _ _ Hfaces Hinit)
    as (n & Hint & Hn & Hsub & Hnb).
  unfold first_line_ok in Hok. rewrite Hsub in Hok. rewrite <- Hsub in Hok.
  assert (Hall : Forall (λ g, nb_faces g = nb_faces body_slice) (subbodies c)).
  { apply Forall_lookup. intros k g Hg.
    assert (Hk : (nb_faces <$> subbodies c) !! k = Some (nb_faces g))
      by (by rewrite list_lookup_fmap, Hg).
    rewrite Hnb in Hk. by apply lookup_replicate in Hk as [-> _]. }
  assert (Hfirst : subbodies c !! 0 = Some body_slice') by (by rewrite Hsub).
  destruct (first_line_results (subbodies c) body_slice' (nb_faces body_slice) kwargs)
    as (pairs & Hpairs); [|done|done|].
  { rewrite Forall_lookup in Hall. by apply (Hall 0). }
  destruct (translation_accelerated c body_slice' (nb_faces body_slice) kwargs log pairs)
    as (S & V & Hrun & HS & HV); try done.
  exists pairs, S, V. split; [|done]. symmetry. by eapply Forall2_length.
Qed.

(** Reading a block depends on the bounds its slices resolve to only. *)
Lemma getitem_bounds_ext (A : ndarray) (b b' : block) :
  slice_bounds b.1 (nrows A) = slice_bounds b'.1 (nrows A) →
  slice_bounds b.2 (ncols A) = slice_bounds b'.2 (ncols A) →
  getitem A b = getitem A b'.
Proof. intros Hr Hc. unfold getitem. by rewrite Hr, Hc. Qed.

(** In an assembled matrix, two blocks at the same distance from the
    diagonal are equal. *)
Lemma assembled_blocks_equal (A : ndarray) (line : list ndarray)
    (f i j i' j' : nat) :
  assembled A line f →
  i < length line → j < length line → i' < length line → j' < length line →
  Z.abs_nat (Z.of_nat j - Z.of_nat i) = Z.abs_nat (Z.of_nat j' - Z.of_nat i') →
  getitem A (uniform_block f i j) = getitem A (uniform_block f i' j').
Proof.
  intros (HA & Hdt & Hcells) Hi Hj Hi' Hj' Hd.
  set (m := length line) in *.
  destruct (uniform_block_bounds m f i j) as [Hr Hc]; [done..|].
  destruct (uniform_block_bounds m f i' j') as [Hr' Hc']; [done..|].
  pose proof (getitem_shaped A _ _ _ _ _ _ _ HA Hr Hc) as Hshape.
  pose proof (getitem_shaped A _ _ _ _ _ _ _ HA Hr' Hc') as Hshape'.
  replace (S i' * f - i' * f) with (S i * f - i * f) in Hshape' by (simpl; lia).
  replace (S j' * f - j' * f) with (S j * f - j * f) in Hshape' by (simpl; lia).
  apply (ndarray_ext _ _ _ _ Hshape Hshape'); [by rewrite !getitem_dtype|].
  intros a b Ha Hb.
  rewrite (getitem_cell A _ _ _ _ _ _ _ _ _ HA Hr Hc) by done.
  rewrite (getitem_cell A _ _ _ _ _ _ _ _ _ HA Hr' Hc') by (simpl in *; lia).
  destruct (lookup_lt_is_Some_2 line (Z.abs_nat (Z.of_nat j - Z.of_nat i)))
    as [s Hs]; [lia|].
  rewrite (Hcells i j s a b), (Hcells i' j' s a b);
    (done || congruence || (simpl in *; lia)).
Qed.
End Accelerated.

(** * The claims of the specification *)

Section Claims.
Context `{C : Collaborators}.

Lemma in_lower_half (f i : nat) :
  in_slice (Slice None (Some f)) (2 * f) i = bool_decide (i < f).
Proof.
  unfold in_slice. rewrite slice_bounds_lower by lia.
  rewrite bool_decide_eq_true_2 by lia. done.
Qed.

Lemma in_upper_half (f i : nat) :
  in_slice (Slice (Some f) None) (2 * f) i = bool_decide (f ≤ i < 2 * f).
Proof.
  unfold in_slice. rewrite slice_bounds_upper by lia.
  repeat case_bool_decide; simpl; (done || lia).
Qed.

Lemma reflection_nb_faces (half half' : Body) (plane : Plane)
    (c : Collection) :
  faces_preserved →
  ReflectionSymmetry_init half plane = (half', Ok c) →
  coll_nb_faces c = 2 * nb_faces half.
Proof.
  intros Hfaces Hinit.
  destruct (reflection_generators half half' plane c Hfaces Hinit)
    as (other_half & Hsub & Hf0 & Hf1).
  unfold coll_nb_faces. rewrite Hsub. simpl. lia.
Qed.

(** C10: a reflection composite built from a half with [f] faces has
    two generators of [f] faces each; its face count [2 f] is even, its
    integer half is [f], and every entry of the [2 f] by [2 f] matrix lies
    in exactly one of the four quarters, which reach no entry outside the
    matrix. *)
Theorem reflection_quarters_partition (half half' : Body) (plane : Plane)
    (c : Collection) :
  faces_preserved →
  ReflectionSymmetry_init half plane = (half', Ok c) →
  let f := nb_faces half in
  let n := coll_nb_faces c in
  let quarters := [top_left n; top_right n; bottom_left n; bottom_right n] in
  nb_faces <$> subbodies c = [f; f] ∧
  n = 2 * f ∧ Nat.Even n ∧ n / 2 = f ∧
  ∀ i j,
    length (List.filter (λ q, in_block q n n i j) quarters)
    = if bool_decide (i < n ∧ j < n) then 1 else 0.
Proof.
  intros Hfaces Hinit f n quarters.
  destruct (reflection_generators half half' plane c Hfaces Hinit)
    as (other_half & Hsub & Hf0 & Hf1).
  assert (Hn : n = 2 * f) by (by eapply reflection_nb_faces).
  split; [by rewrite Hsub; simpl; rewrite Hf0, Hf1|].
  split; [done|]. split; [by exists f|].
  split; [rewrite Hn; apply half_double|].
  intros i j. unfold quarters, top_left, top_right, bottom_left, bottom_right.
  rewrite Hn, half_double. unfold in_block. simpl.
  rewrite !in_lower_half, !in_upper_half.
  repeat case_bool_decide; simpl; lia.
Qed.

Lemma quarters_uniform (A : ndarray) (f : nat) :
  nrows A = 2 * f → ncols A = 2 * f →
  getitem A (top_left (2 * f)) = getitem A (uniform_block f 0 0) ∧
  getitem A (top_right (2 * f)) = getitem A (uniform_block f 0 1) ∧
  getitem A (bottom_left (2 * f)) = getitem A (uniform_block f 1 0) ∧
  getitem A (bottom_right (2 * f)) = getitem A (uniform_block f 1 1).
Proof.
  intros Hr Hc. unfold top_left, top_right, bottom_left, bottom_right.
  rewrite half_double.
  repeat split; apply getitem_bounds_ext; rewrite ?Hr, ?Hc; simpl fst; simpl snd;
    rewrite ?slice_bounds_lower, ?slice_bounds_upper, ?slice_bounds_both by lia;
    f_equal; lia.
Qed.

Lemma assembled_mirrored (A s00 s01 : ndarray) (f : nat) :
  assembled A [s00; s01] f →
  getitem A (bottom_left (2 * f)) = getitem A (top_right (2 * f)) ∧
  getitem A (bottom_right (2 * f)) = getitem A (top_left (2 * f)).
Proof.
  intros HA. pose proof HA as (Hshape & _).
  apply well_shaped_spec in Hshape as (Hr & Hc & _). simpl in Hr, Hc.
  destruct (quarters_uniform A f) as (-> & -> & -> & ->); [lia..|].
  split; apply (assembled_blocks_equal A [s00; s01]); simpl; (done || lia).
Qed.

(** C7: on the accelerated path of a reflection composite, in both
    matrices the bottom-left quarter equals the top-right quarter and the
    bottom-right quarter equals the top-left quarter, the quarters being
    split at half the face count of the composite. *)
Theorem reflection_quarters_mirrored (half half' : Body) (plane : Plane)
    (c : Collection) (kwargs : Kwargs) (log : list Call) :
  faces_preserved →
  ReflectionSymmetry_init half plane = (half', Ok c) →
  first_line_ok c kwargs = true →
  ∃ S V log',
    ReflectionSymmetry_build_matrices c Self false kwargs log
      = (Ok (S, V), log') ∧
    let n := coll_nb_faces c in
    getitem S (bottom_left n) = getitem S (top_right n) ∧
    getitem S (bottom_right n) = getitem S (top_left n) ∧
    getitem V (bottom_left n) = getitem V (top_right n) ∧
    getitem V (bottom_right n) = getitem V (top_left n).
Proof.
  intros Hfaces Hinit Hok.
  destruct (reflection_runs half half' plane c kwargs log Hfaces Hinit Hok)
    as (other_half & s00 & v00 & s01 & v01 & S & V & Hsub & _ & _ & Hrun & HS & HV).
  pose proof (reflection_nb_faces half half' plane c Hfaces Hinit) as Hn.
  do 3 eexists. split; [exact Hrun|]. cbv zeta. rewrite Hn.
  destruct (assembled_mirrored S s00 s01 _ HS) as [-> ->].
  by destruct (assembled_mirrored V v00 v01 _ HV) as [-> ->].
Qed.

Lemma block_at_uniform (c : Collection) (m f i j : nat) :
  nb_faces <$> subbodies c = replicate m f → i < m → j < m →
  block_at c i j = Some (uniform_block f i j).
Proof.
  intros Hfaces Hi Hj. unfold block_at.
  rewrite (matrix_blocks_line c m f i Hfaces Hi). simpl.
  by apply uniform_line_lookup.
Qed.

(** C6: on the accelerated path of a translation composite with [m]
    generators, in both matrices block [(i, j)] of the grid laid out by
    the prefix sums of the face counts equals block [(0, |j - i|)], for
    all [i, j < m]. *)
Theorem translation_blocks_toeplitz (body_slice body_slice' : Body)
    (translation : list Coord) (nb_repetitions : pyvalue) (c : Collection)
    (kwargs : Kwargs) (log : list Call) :
  faces_preserved →
  TranslationalSymmetry_init body_slice translation nb_repetitions
    = (body_slice', Ok c) →
  first_line_ok c kwargs = true →
  ∃ S V log',
    TranslationalSymmetry_build_matrices c Self false kwargs log
      = (Ok (S, V), log') ∧
    ∀ i j, i < length (subbodies c) → j < length (subbodies c) →
      ∃ block_ij block_0d,
        block_at c i j = Some block_ij ∧
        block_at c 0 (Z.abs_nat (Z.of_nat j - Z.of_nat i)) = Some block_0d ∧
        getitem S block_ij = getitem S block_0d ∧
        getitem V block_ij = getitem V block_0d.
Proof.
  intros Hfaces Hinit Hok.
  destruct (translation_runs _ _ _ _ _ kwargs log Hfaces Hinit Hok)
    as (pairs & S & V & Hlen & Hrun & HS & HV).
  destruct (translation_generators _ _ _ _ _ Hfaces Hinit)
    as (n & _ & _ & _ & Hnb).
  do 3 eexists. split; [exact Hrun|]. intros i j Hi Hj.
  set (d := Z.abs_nat (Z.of_nat j - Z.of_nat i)).
  assert (Hd : d < length (subbodies c)) by (unfold d; lia).
  exists (uniform_block (nb_faces body_slice) i j),
         (uniform_block (nb_faces body_slice) 0 d).
  split; [by eapply block_at_uniform|].
  split; [eapply block_at_uniform; (done || lia)|].
  split.
  - apply (assembled_blocks_equal S pairs.*1);
      rewrite ?length_fmap, ?Hlen; (done || lia).
  - apply (assembled_blocks_equal V pairs.*2);
      rewrite ?length_fmap, ?Hlen; (done || lia).
Qed.

(** C5: on the accelerated path, a reflection composite has the kernel
    evaluated exactly twice, and a translation composite with [m]
    generators exactly [m] times, whatever the keyword arguments. *)
Theorem accelerated_kernel_evaluations :
  faces_preserved →
  (∀ half half' plane c kwargs log,
     ReflectionSymmetry_init half plane = (half', Ok c) →
     first_line_ok c kwargs = true →
     ∃ SV calls,
       ReflectionSymmetry_build_matrices c Self false kwargs log
         = (Ok SV, log ++ calls) ∧
       length calls = 2) ∧
  (∀ body_slice body_slice' translation nb_repetitions c kwargs log,
     TranslationalSymmetry_init body_slice translation nb_repetitions
       = (body_slice', Ok c) →
     first_line_ok c kwargs = true →
     ∃ SV calls,
       TranslationalSymmetry_build_matrices c Self false kwargs log
         = (Ok SV, log ++ calls) ∧
       length calls = length (subbodies c)).
Proof.
  intros Hfaces. split.
  - intros half half' plane c kwargs log Hinit Hok.
    destruct (reflection_runs half half' plane c kwargs log Hfaces Hinit Hok)
      as (other_half & s00 & v00 & s01 & v01 & S & V & _ & _ & _ & Hrun & _).
    by do 2 eexists.
  - intros body_slice body_slice' translation nb_repetitions c kwargs log Hinit Hok.
    destruct (translation_runs _ _ _ _ _ kwargs log Hfaces Hinit Hok)
      as (pairs & S & V & _ & Hrun & _).
    do 2 eexists. split; [exact Hrun|]. by rewrite length_fmap.
Qed.

(** C9: the two matrices returned by the accelerated path of either
    class have the single-precision complex dtype, whatever dtype the
    arrays returned by the kernel have. *)
Theorem accelerated_single_precision :
  faces_preserved →
  (∀ half half' plane c kwargs log,
     ReflectionSymmetry_init half plane = (half', Ok c) →
     first_line_ok c kwargs = true →
     ∃ S V log',
       ReflectionSymmetry_build_matrices c Self false kwargs log
         = (Ok (S, V), log') ∧
       dtype S = complex64 ∧ dtype V = complex64) ∧
  (∀ body_slice body_slice' translation nb_repetitions c kwargs log,
     TranslationalSymmetry_init body_slice translation nb_repetitions
       = (body_slice', Ok c) →
     first_line_ok c kwargs = true →
     ∃ S V log',
       TranslationalSymmetry_build_matrices c Self false kwargs log
         = (Ok (S, V), log') ∧
       dtype S = complex64 ∧ dtype V = complex64).
Proof.
  intros Hfaces. split.
  - intros half half' plane c kwargs log Hinit Hok.
    destruct (reflection_runs half half' plane c kwargs log Hfaces Hinit Hok)
      as (other_half & s00 & v00 & s01 & v01 & S & V & _ & _ & _ & Hrun
          & (_ & HS & _) & (_ & HV & _)).
    by do 3 eexists.
  - intros body_slice body_slice' translation nb_repetitions c kwargs log Hinit Hok.
    destruct (translation_runs _ _ _ _ _ kwargs log Hfaces Hinit Hok)
      as (pairs & S & V & _ & Hrun & (_ & HS & _) & (_ & HV & _)).
    by do 3 eexists.
Qed.

(** C8: a valid translation construction with [n] repetitions yields the
    generators [body_slice, copy_1, ..., copy_n] in this order, where
    [body_slice] is the input itself (its retention budget scaled in
    place), [copy_i] is a copy of it translated by [i] times the
    translation vector, relabelled with a name derived from, and
    different from, the name of the original. *)
Theorem translation_generator_sequence (body_slice : Body)
    (translation : list Coord) (nb_repetitions : pyvalue) (n : Z) :
  as_int nb_repetitions = Some n → (1 ≤ n)%Z → length translation = 3 →
  ∃ body_slice' c,
    TranslationalSymmetry_init body_slice translation nb_repetitions
      = (body_slice', Ok c) ∧
    body_slice' = set_nb_matrices_to_keep body_slice
                    (nb_matrices_to_keep body_slice * n) ∧
    length (subbodies c) = Z.to_nat (n + 1) ∧
    subbodies c !! 0 = Some body_slice' ∧
    ∀ i, (1 ≤ i ≤ n)%Z →
      ∃ copy_i,
        subbodies c !! Z.to_nat i = Some copy_i ∧
        let moved := Body_translate (Body_copy body_slice')
                       (coord_mul i <$> translation) in
        mesh copy_i = mesh moved ∧
        nb_faces copy_i = nb_faces moved ∧
        dofs copy_i = dofs moved ∧
        nb_matrices_to_keep copy_i = (nb_matrices_to_keep moved * (n + 1))%Z ∧
        name copy_i = "repetition_" +:+ pretty i +:+ "_of_" +:+ name body_slice ∧
        name copy_i ≠ name body_slice.
Proof.
  intros Hint Hn Hlen.
  pose proof (TranslationalSymmetry_init_ok body_slice _ _ _ Hint Hn Hlen) as Hinit.
  cbv zeta in Hinit. do 2 eexists. split; [exact Hinit|].
  split; [done|]. simpl. rewrite length_fmap, length_seqZ.
  split; [lia|]. split; [done|].
  intros i Hi. exists (new_slice
    (set_nb_matrices_to_keep body_slice (nb_matrices_to_keep body_slice * n))
    translation n i).
  split.
  - replace (Z.to_nat i) with (S (Z.to_nat (i - 1))) by lia. simpl.
    rewrite list_lookup_fmap, lookup_seqZ_lt by lia. simpl.
    do 2 f_equal. lia.
  - repeat split. simpl. intros Heq.
    apply (f_equal String.length) in Heq.
    rewrite !length_app_string in Heq. simpl in Heq. lia.
Qed.

(** C4, as the code has it: a translation symmetry whose repetition
    count is not an [int], or is an [int] below 1, fails with
    [AssertionError]; no composite is created and the input body is left
    as it was. *)
Theorem translation_invalid_repetitions (body_slice : Body)
    (translation : list Coord) (nb_repetitions : pyvalue) :
  match as_int nb_repetitions with
  | Some n => (n < 1)%Z
  | None => True
  end →
  TranslationalSymmetry_init body_slice translation nb_repetitions
    = (body_slice, Raise AssertionError).
Proof.
  intros Hbad. unfold TranslationalSymmetry_init.
  destruct (as_int nb_repetitions) as [n|]; [|done].
  by rewrite bool_decide_eq_false_2 by lia.
Qed.

(** What the loops over the degrees of freedom compute: the entry of a
    reflection composite is the original array twice; the entry of a
    translation composite is the original array [nb_repetitions] times. *)
Lemma reflection_dofs (half half' : Body) (plane : Plane) (c : Collection)
    (key : string) :
  ReflectionSymmetry_init half plane = (half', Ok c) →
  coll_dofs c !! ("mirrored_" +:+ key) = (λ dof, dof ++ dof) <$> dofs half !! key.
Proof.
  intros [= <- <-]. simpl.
  rewrite (renamed_dofs_lookup "mirrored_" (λ dof, np_concatenate [dof; dof])).
  destruct (dofs half !! key); [|done]. simpl. unfold np_concatenate. simpl.
  by rewrite app_nil_r.
Qed.

Lemma translation_dofs (body_slice body_slice' : Body)
    (translation : list Coord) (nb_repetitions : pyvalue) (n : Z)
    (c : Collection) (key : string) :
  as_int nb_repetitions = Some n →
  TranslationalSymmetry_init body_slice translation nb_repetitions
    = (body_slice', Ok c) →
  coll_dofs c !! ("translated_" +:+ key)
  = (λ dof, mjoin (replicate (Z.to_nat n) dof)) <$> dofs body_slice !! key.
Proof.
  intros Hint Hinit. unfold TranslationalSymmetry_init in Hinit.
  rewrite Hint in Hinit.
  case_bool_decide as Hn; [|done]. case_bool_decide as Hlen; [|done].
  injection Hinit as <- <-. simpl.
  rewrite (renamed_dofs_lookup "translated_"
             (λ dof, np_concatenate (list_mul [dof] n))).
  destruct (dofs body_slice !! key) as [dof|]; [|done]. simpl. f_equal.
  unfold np_concatenate, list_mul. f_equal.
  induction (Z.to_nat n) as [|k IH]; [done|]. simpl. by rewrite IH.
Qed.

(** C2, as the code has it: whenever the target is another object or
    the full computation is forced, [TranslationalSymmetry.build_matrices]
    raises [UnboundLocalError] before any call: the branch names the
    local [body], which only the loop of the other branch binds. *)
Theorem translation_fallback_unbound (c : Collection) (kwargs : Kwargs)
    (log : list Call) :
  (∀ other force_full_computation,
     TranslationalSymmetry_build_matrices c (Other other)
       force_full_computation kwargs log = (Raise UnboundLocalError, log)) ∧
  (∀ other_body,
     TranslationalSymmetry_build_matrices c other_body true kwargs log
     = (Raise UnboundLocalError, log)).
Proof. split; [done|]. by intros []. Qed.

(** The sibling class does delegate to the generic assembly, with the
    actual second argument and the keyword arguments as received. *)
Lemma reflection_fallback_delegates (c : Collection) (other_body : reference)
    (force_full_computation : bool) (kwargs : Kwargs) :
  is_self other_body && negb force_full_computation = false →
  ReflectionSymmetry_build_matrices c other_body force_full_computation kwargs
  = Collection_build_matrices c (deref c other_body) kwargs.
Proof. intros H. unfold ReflectionSymmetry_build_matrices. by rewrite H. Qed.

(** Two arrays assembled from the same first line are the same array. *)
Lemma assembled_unique (A B : ndarray) (line : list ndarray) (f : nat) :
  assembled A line f → assembled B line f → A = B.
Proof.
  intros (HA & HdtA & HcA) (HB & HdtB & HcB).
  apply (ndarray_ext A B _ _ HA HB); [congruence|].
  intros x y Hx Hy.
  assert (Hf : f ≠ 0) by (intros ->; lia).
  assert (Hi : x / f < length line) by (apply Nat.Div0.div_lt_upper_bound; lia).
  assert (Hj : y / f < length line) by (apply Nat.Div0.div_lt_upper_bound; lia).
  pose proof (Nat.mod_upper_bound x f Hf) as Ha.
  pose proof (Nat.mod_upper_bound y f Hf) as Hb.
  destruct (lookup_lt_is_Some_2 line (Z.abs_nat (Z.of_nat (y / f) - Z.of_nat (x / f))))
    as [s Hs]; [lia|].
  rewrite (Nat.div_mod_eq x f), (Nat.div_mod_eq y f).
  rewrite (Nat.mul_comm f (x / f)), (Nat.mul_comm f (y / f)).
  by rewrite (HcA _ _ s), (HcB _ _ s).
Qed.

(** The four slice assignments the generic assembly makes on one of the
    two matrices of a two-generator composite, when the kernel gives the
    same answer on mirrored pairs. *)
Lemma generic_chain (A0 s00 s01 : ndarray) (f : nat) :
  well_shaped A0 (2 * f) (2 * f) = true → dtype A0 = complex64 →
  well_shaped s00 f f = true → well_shaped s01 f f = true →
  ∃ A1 A2 A3 A4,
    setitem A0 (uniform_block f 0 0) s00 = Ok A1 ∧
    setitem A1 (uniform_block f 0 1) s01 = Ok A2 ∧
    setitem A2 (uniform_block f 1 0) s01 = Ok A3 ∧
    setitem A3 (uniform_block f 1 1) s00 = Ok A4 ∧
    assembled A4 [s00; s01] f.
Proof.
  intros HA0 Hdt0 Hs00 Hs01.
  destruct (uniform_block_bounds 2 f 0 0) as [Hr00 Hc00]; [lia..|].
  destruct (uniform_block_bounds 2 f 0 1) as [Hr01 Hc01]; [lia..|].
  destruct (uniform_block_bounds 2 f 1 0) as [Hr10 Hc10]; [lia..|].
  destruct (uniform_block_bounds 2 f 1 1) as [Hr11 Hc11]; [lia..|].
  assert (E0 : 1 * f - 0 * f = f) by lia.
  assert (E1 : 2 * f - 1 * f = f) by lia.
  destruct (setitem_block A0 s00 _ _ _ _ _ _ _ HA0 Hr00 Hc00)
    as (A1 & H1 & HA1 & Hdt1 & Hin1 & Hout1); [by rewrite E0|].
  destruct (setitem_block A1 s01 _ _ _ _ _ _ _ HA1 Hr01 Hc01)
    as (A2 & H2 & HA2 & Hdt2 & Hin2 & Hout2); [by rewrite E0, E1|].
  destruct (setitem_block A2 s01 _ _ _ _ _ _ _ HA2 Hr10 Hc10)
    as (A3 & H3 & HA3 & Hdt3 & Hin3 & Hout3); [by rewrite E0, E1|].
  destruct (setitem_block A3 s00 _ _ _ _ _ _ _ HA3 Hr11 Hc11)
    as (A4 & H4 & HA4 & Hdt4 & Hin4 & Hout4); [by rewrite E1|].
  exists A1, A2, A3, A4. repeat split; try done; [congruence|].
  intros i j s a b Hi Hj Hs Ha Hb.
  rewrite Hdt0 in Hin1. rewrite Hdt1, Hdt0 in Hin2.
  rewrite Hdt2, Hdt1, Hdt0 in Hin3. rewrite Hdt3, Hdt2, Hdt1, Hdt0 in Hin4.
  destruct i as [|[|i]], j as [|[|j]]; simpl in Hi, Hj; try lia;
    simpl in Hs; injection Hs as <-.
  - rewrite Hout4, Hout3, Hout2 by lia. rewrite Hin1 by lia.
    do 2 f_equal; lia.
  - rewrite Hout4, Hout3 by lia. rewrite Hin2 by lia.
    do 2 f_equal; lia.
  - rewrite Hout4 by lia. rewrite Hin3 by lia.
    do 2 f_equal; lia.
  - rewrite Hin4 by lia.
    do 2 f_equal; lia.
Qed.

Lemma generic_on_reflection (c : Collection) (g0 g1 : Body) (f : nat)
    (kwargs : Kwargs) (log : list Call) (s00 v00 s01 v01 : ndarray) :
  subbodies c = [g0; g1] → nb_faces g0 = f → nb_faces g1 = f →
  Body_build_matrices g0 g0 kwargs = Ok (s00, v00) →
  Body_build_matrices g0 g1 kwargs = Ok (s01, v01) →
  Body_build_matrices g1 g0 kwargs = Body_build_matrices g0 g1 kwargs →
  Body_build_matrices g1 g1 kwargs = Body_build_matrices g0 g0 kwargs →
  well_shaped s00 f f = true → well_shaped v00 f f = true →
  well_shaped s01 f f = true → well_shaped v01 f f = true →
  ∃ S V,
    Collection_build_matrices c (Composite c) kwargs log =
      (Ok (S, V), log ++ [(g0, g0, kwargs); (g0, g1, kwargs);
                          (g1, g0, kwargs); (g1, g1, kwargs)]) ∧
    assembled S [s00; s01] f ∧ assembled V [v00; v01] f.
Proof.
  intros Hsub Hf0 Hf1 Hk00 Hk01 Hk10 Hk11 Hs00 Hv00 Hs01 Hv01.
  rewrite Hk01 in Hk10. rewrite Hk00 in Hk11.
  assert (Hn : coll_nb_faces c = 2 * f).
  { unfold coll_nb_faces. rewrite Hsub. simpl. lia. }
  destruct (generic_chain (np_empty 0 (2 * f, 2 * f) complex64) s00 s01 f)
    as (S1 & S2 & S3 & S4 & HS1 & HS2 & HS3 & HS4 & HS); try done.
  { apply np_empty_shaped. }
  destruct (generic_chain (np_empty 1 (2 * f, 2 * f) complex64) v00 v01 f)
    as (V1 & V2 & V3 & V4 & HV1 & HV2 & HV3 & HV4 & HV); try done.
  { apply np_empty_shaped. }
  exists S4, V4. split; [|done].
  unfold Collection_build_matrices. cbn [generators body_nb_faces].
  rewrite Hn, Hsub.
  pose proof (ranges_replicate 2 f) as Hranges. cbv zeta in Hranges.
  change (replicate 2 f) with [f; f] in Hranges.
  change (nb_faces <$> [g0; g1]) with [nb_faces g0; nb_faces g1].
  rewrite Hf0, Hf1, Hranges.
  cbn [fmap list_fmap seq zip zip_with foldM].
  do 2 (rewrite ?bind_assoc; erewrite bind_ok by (by apply call_kernel_ok);
        rewrite ?bind_assoc; erewrite bind_ok by (by apply assign_pair_ok)).
  rewrite ?bind_assoc; erewrite bind_ok by reflexivity.
  do 2 (rewrite ?bind_assoc; erewrite bind_ok by (by apply call_kernel_ok);
        rewrite ?bind_assoc; erewrite bind_ok by (by apply assign_pair_ok)).
  rewrite ?bind_assoc; erewrite bind_ok by reflexivity.
  unfold mret, M_ret. by rewrite <- !app_assoc.
Qed.

(** C1, as the code has it, for reflection composites: when the kernel
    honours its interface and gives the same answer on mirrored pairs of
    generators, the accelerated path and the forced full computation (the
    generic assembly) return the same pair of matrices, both of the
    single-precision complex dtype. *)
Theorem reflection_paths_agree (half half' : Body) (plane : Plane)
    (c : Collection) (kwargs : Kwargs) (log : list Call) :
  faces_preserved →
  ReflectionSymmetry_init half plane = (half', Ok c) →
  first_line_ok c kwargs = true →
  mirror_invariant c kwargs →
  ∃ S V log_fast log_full,
    ReflectionSymmetry_build_matrices c Self false kwargs log
      = (Ok (S, V), log_fast) ∧
    ReflectionSymmetry_build_matrices c Self true kwargs log
      = (Ok (S, V), log_full) ∧
    dtype S = complex64 ∧ dtype V = complex64.
Proof.
  intros Hfaces Hinit Hok Hmirror.
  destruct (reflection_runs half half' plane c kwargs log Hfaces Hinit Hok)
    as (other_half & s00 & v00 & s01 & v01 & S & V & Hsub & H00 & H01 & Hrun & HS & HV).
  destruct (reflection_generators half half' plane c Hfaces Hinit)
    as (other_half' & Hsub' & Hf0 & Hf1).
  assert (other_half' = other_half) as -> by congruence.
  unfold mirror_invariant in Hmirror. rewrite Hsub in Hmirror.
  destruct Hmirror as [H10 H11].
  pose proof HS as (HSs & HSd & _). pose proof HV as (HVs & HVd & _).
  assert (Hshapes : well_shaped s00 (nb_faces half) (nb_faces half) = true ∧
                    well_shaped v00 (nb_faces half) (nb_faces half) = true ∧
                    well_shaped s01 (nb_faces half) (nb_faces half) = true ∧
                    well_shaped v01 (nb_faces half) (nb_faces half) = true).
  { unfold first_line_ok in Hok. rewrite Hsub in Hok. simpl in Hok.
    unfold kernel_ok in Hok. rewrite H00, H01, Hf0, Hf1 in Hok.
    rewrite !andb_true_iff in Hok. tauto. }
  destruct Hshapes as (Hs00 & Hv00 & Hs01 & Hv01).
  destruct (generic_on_reflection c half' other_half (nb_faces half) kwargs log
              s00 v00 s01 v01) as (S' & V' & Hfull & HS' & HV'); try done.
  exists S, V. do 2 eexists. split; [exact Hrun|]. split; [|done].
  unfold ReflectionSymmetry_build_matrices. cbn [is_self negb andb deref].
  rewrite Hfull.
  by rewrite (assembled_unique S S' _ _ HS HS'), (assembled_unique V V' _ _ HV HV').
Qed.
End Claims.

(** * The claims on a concrete composite *)

(** C1 fails as stated.  With a kernel that is a function of its
    arguments, yet answers differently on mirrored pairs, the accelerated
    path and the forced full computation of a reflection composite return
    different matrices; and on a translation composite the forced full
    computation returns no matrices at all. *)
Lemma accelerated_and_full_computation_differ :
  (@ReflectionSymmetry_init Demo.universe Demo.skew Demo.hull 0).2
    = Ok Demo.skew_mirrored_hull ∧
  (@ReflectionSymmetry_build_matrices Demo.universe Demo.skew
     Demo.skew_mirrored_hull Self false Demo.no_kwargs []).1
  ≠ (@ReflectionSymmetry_build_matrices Demo.universe Demo.skew
       Demo.skew_mirrored_hull Self true Demo.no_kwargs []).1 ∧
  (@TranslationalSymmetry_build_matrices Demo.universe Demo.even
     (Demo.repeated_hull 2) Self true Demo.no_kwargs []).1
  = Raise UnboundLocalError.
Proof.
  split; [reflexivity|]. split; [|reflexivity].
  vm_compute. intros H. discriminate H.
Qed.

Lemma reflection_paths_agree_witness :
  @faces_preserved Demo.universe Demo.even ∧
  @first_line_ok Demo.universe Demo.even Demo.mirrored_hull Demo.no_kwargs = true ∧
  @mirror_invariant Demo.universe Demo.even Demo.mirrored_hull Demo.no_kwargs ∧
  ∃ S V log_fast log_full,
    @ReflectionSymmetry_build_matrices Demo.universe Demo.even
      Demo.mirrored_hull Self false Demo.no_kwargs [] = (Ok (S, V), log_fast) ∧
    @ReflectionSymmetry_build_matrices Demo.universe Demo.even
      Demo.mirrored_hull Self true Demo.no_kwargs [] = (Ok (S, V), log_full) ∧
    dtype S = complex64 ∧ dtype V = complex64.
Proof.
  assert (Hfaces : @faces_preserved Demo.universe Demo.even)
    by (repeat split; intros; reflexivity).
  assert (Hok : @first_line_ok Demo.universe Demo.even Demo.mirrored_hull
                  Demo.no_kwargs = true) by (vm_compute; reflexivity).
  assert (Hmirror : @mirror_invariant Demo.universe Demo.even Demo.mirrored_hull
                      Demo.no_kwargs) by (split; vm_compute; reflexivity).
  split; [exact Hfaces|]. split; [exact Hok|]. split; [exact Hmirror|].
  apply (@reflection_paths_agree Demo.universe Demo.even Demo.hull
           Demo.hull_mirrored 0 Demo.mirrored_hull Demo.no_kwargs []);
    [exact Hfaces | reflexivity | exact Hok | exact Hmirror].
Defined.

(** C3 fails on the code.  With one repetition the composite has two
    generators and four faces, but the vector stored under the renamed key
    is the original two-row vector, once: the constructor repeats it
    [nb_repetitions] times, one less than the number of generators. *)
Theorem translation_dofs_one_short :
  ∃ c,
    (@TranslationalSymmetry_init Demo.universe Demo.even Demo.hull
       [1; 0; 0]%Z (PyInt 1)).2 = Ok c ∧
    length (subbodies c) = 2 ∧
    coll_nb_faces c = 4 ∧
    dofs Demo.hull !! "Heave" = Some [10; 20]%Z ∧
    coll_dofs c !! "translated_Heave" = Some [10; 20]%Z.
Proof. eexists. split; [reflexivity|]. repeat split; vm_compute; reflexivity. Qed.

(** C4 fails as stated.  A repetition count of zero is refused, but with
    [AssertionError]: no [InvalidSymmetryArgument] is raised. *)
Lemma translation_zero_is_assertion_error :
  (@TranslationalSymmetry_init Demo.universe Demo.even Demo.hull
     [1; 0; 0]%Z (PyInt 0)).2 = Raise AssertionError ∧
  (@TranslationalSymmetry_init Demo.universe Demo.even Demo.hull
     [1; 0; 0]%Z (PyInt 0)).2 ≠ Raise (OtherError "InvalidSymmetryArgument").
Proof. split; [reflexivity|]. vm_compute. intros H. discriminate H. Qed.

Lemma translation_invalid_repetitions_witness :
  @TranslationalSymmetry_init Demo.universe Demo.even Demo.hull
    [1; 0; 0]%Z (PyFloat 3 (-1)) = (Demo.hull, Raise AssertionError) ∧
  @TranslationalSymmetry_init Demo.universe Demo.even Demo.hull
    [1; 0; 0]%Z (PyInt (-2)) = (Demo.hull, Raise AssertionError).
Proof.
  split.
  - apply (@translation_invalid_repetitions Demo.universe Demo.even). exact I.
  - apply (@translation_invalid_repetitions Demo.universe Demo.even). simpl. lia.
Defined.

Lemma accelerated_kernel_evaluations_witness :
  @faces_preserved Demo.universe Demo.even ∧
  @first_line_ok Demo.universe Demo.even Demo.mirrored_hull Demo.no_kwargs = true ∧
  @first_line_ok Demo.universe Demo.even (Demo.repeated_hull 2) Demo.no_kwargs = true ∧
  (∃ SV calls,
     @ReflectionSymmetry_build_matrices Demo.universe Demo.even
       Demo.mirrored_hull Self false Demo.no_kwargs [] = (Ok SV, [] ++ calls) ∧
     length calls = 2) ∧
  (∃ SV calls,
     @TranslationalSymmetry_build_matrices Demo.universe Demo.even
       (Demo.repeated_hull 2) Self false Demo.no_kwargs [] = (Ok SV, [] ++ calls) ∧
     length calls = 3).
Proof.
  assert (Hfaces : @faces_preserved Demo.universe Demo.even)
    by (repeat split; intros; reflexivity).
  assert (Hok : @first_line_ok Demo.universe Demo.even Demo.mirrored_hull
                  Demo.no_kwargs = true) by (vm_compute; reflexivity).
  assert (Hok' : @first_line_ok Demo.universe Demo.even (Demo.repeated_hull 2)
                   Demo.no_kwargs = true) by (vm_compute; reflexivity).
  split; [exact Hfaces|]. split; [exact Hok|]. split; [exact Hok'|].
  destruct (@accelerated_kernel_evaluations Demo.universe Demo.even Hfaces)
    as [Hreflection Htranslation].
  split.
  - apply (Hreflection Demo.hull Demo.hull_mirrored 0 Demo.mirrored_hull
             Demo.no_kwargs []); [reflexivity | exact Hok].
  - apply (Htranslation Demo.hull (Demo.hull_repeated 2) [1; 0; 0]%Z (PyInt 2)
             (Demo.repeated_hull 2) Demo.no_kwargs []); [reflexivity | exact Hok'].
Defined.

Lemma accelerated_single_precision_witness :
  @faces_preserved Demo.universe Demo.even ∧
  @first_line_ok Demo.universe Demo.even Demo.mirrored_hull Demo.no_kwargs = true ∧
  @first_line_ok Demo.universe Demo.even (Demo.repeated_hull 2) Demo.no_kwargs = true ∧
  (∃ S V log',
     @ReflectionSymmetry_build_matrices Demo.universe Demo.even
       Demo.mirrored_hull Self false Demo.no_kwargs [] = (Ok (S, V), log') ∧
     dtype S = complex64 ∧ dtype V = complex64) ∧
  (∃ S V log',
     @TranslationalSymmetry_build_matrices Demo.universe Demo.even
       (Demo.repeated_hull 2) Self false Demo.no_kwargs [] = (Ok (S, V), log') ∧
     dtype S = complex64 ∧ dtype V = complex64).
Proof.
  assert (Hfaces : @faces_preserved Demo.universe Demo.even)
    by (repeat split; intros; reflexivity).
  assert (Hok : @first_line_ok Demo.universe Demo.even Demo.mirrored_hull
                  Demo.no_kwargs = true) by (vm_compute; reflexivity).
  assert (Hok' : @first_line_ok Demo.universe Demo.even (Demo.repeated_hull 2)
                   Demo.no_kwargs = true) by (vm_compute; reflexivity).
  split; [exact Hfaces|]. split; [exact Hok|]. split; [exact Hok'|].
  destruct (@accelerated_single_precision Demo.universe Demo.even Hfaces)
    as [Hreflection Htranslation].
  split.
  - apply (Hreflection Demo.hull Demo.hull_mirrored 0 Demo.mirrored_hull
             Demo.no_kwargs []); [reflexivity | exact Hok].
  - apply (Htranslation Demo.hull (Demo.hull_repeated 2) [1; 0; 0]%Z (PyInt 2)
             (Demo.repeated_hull 2) Demo.no_kwargs []); [reflexivity | exact Hok'].
Defined.

Lemma translation_blocks_toeplitz_witness :
  @faces_preserved Demo.universe Demo.even ∧
  @first_line_ok Demo.universe Demo.even (Demo.repeated_hull 2) Demo.no_kwargs = true ∧
  ∃ S V log',
    @TranslationalSymmetry_build_matrices Demo.universe Demo.even
      (Demo.repeated_hull 2) Self false Demo.no_kwargs [] = (Ok (S, V), log') ∧
    ∀ i j, i < length (subbodies (Demo.repeated_hull 2)) →
           j < length (subbodies (Demo.repeated_hull 2)) →
      ∃ block_ij block_0d,
        block_at (Demo.repeated_hull 2) i j = Some block_ij ∧
        block_at (Demo.repeated_hull 2) 0 (Z.abs_nat (Z.of_nat j - Z.of_nat i))
          = Some block_0d ∧
        getitem S block_ij = getitem S block_0d ∧
        getitem V block_ij = getitem V block_0d.
Proof.
  assert (Hfaces : @faces_preserved Demo.universe Demo.even)
    by (repeat split; intros; reflexivity).
  assert (Hok : @first_line_ok Demo.universe Demo.even (Demo.repeated_hull 2)
                  Demo.no_kwargs = true) by (vm_compute; reflexivity).
  split; [exact Hfaces|]. split; [exact Hok|].
  apply (@translation_blocks_toeplitz Demo.universe Demo.even Demo.hull
           (Demo.hull_repeated 2) [1; 0; 0]%Z (PyInt 2) (Demo.repeated_hull 2)
           Demo.no_kwargs []); [exact Hfaces | reflexivity | exact Hok].
Defined.

Lemma reflection_quarters_mirrored_witness :
  @faces_preserved Demo.universe Demo.even ∧
  @first_line_ok Demo.universe Demo.even Demo.mirrored_hull Demo.no_kwargs = true ∧
  ∃ S V log',
    @ReflectionSymmetry_build_matrices Demo.universe Demo.even
      Demo.mirrored_hull Self false Demo.no_kwargs [] = (Ok (S, V), log') ∧
    let n := coll_nb_faces Demo.mirrored_hull in
    getitem S (bottom_left n) = getitem S (top_right n) ∧
    getitem S (bottom_right n) = getitem S (top_left n) ∧
    getitem V (bottom_left n) = getitem V (top_right n) ∧
    getitem V (bottom_right n) = getitem V (top_left n).
Proof.
  assert (Hfaces : @faces_preserved Demo.universe Demo.even)
    by (repeat split; intros; reflexivity).
  assert (Hok : @first_line_ok Demo.universe Demo.even Demo.mirrored_hull
                  Demo.no_kwargs = true) by (vm_compute; reflexivity).
  split; [exact Hfaces|]. split; [exact Hok|].
  apply (@reflection_quarters_mirrored Demo.universe Demo.even Demo.hull
           Demo.hull_mirrored 0 Demo.mirrored_hull Demo.no_kwargs []);
    [exact Hfaces | reflexivity | exact Hok].
Defined.

Lemma reflection_quarters_partition_witness :
  @faces_preserved Demo.universe Demo.even ∧
  let f := nb_faces Demo.hull in
  let n := coll_nb_faces Demo.mirrored_hull in
  let quarters := [top_left n; top_right n; bottom_left n; bottom_right n] in
  nb_faces <$> subbodies Demo.mirrored_hull = [f; f] ∧
  n = 2 * f ∧ Nat.Even n ∧ n / 2 = f ∧
  ∀ i j,
    length (List.filter (λ q, in_block q n n i j) quarters)
    = if bool_decide (i < n ∧ j < n) then 1 else 0.
Proof.
  assert (Hfaces : @faces_preserved Demo.universe Demo.even)
    by (repeat split; intros; reflexivity).
  split; [exact Hfaces|].
  apply (@reflection_quarters_partition Demo.universe Demo.even Demo.hull
           Demo.hull_mirrored 0 Demo.mirrored_hull); [exact Hfaces | reflexivity].
Defined.

Lemma translation_generator_sequence_witness :
  ∃ body_slice' c,
    @TranslationalSymmetry_init Demo.universe Demo.even Demo.hull
      [1; 0; 0]%Z (PyInt 2) = (body_slice', Ok c) ∧
    body_slice' = set_nb_matrices_to_keep Demo.hull
                    (nb_matrices_to_keep Demo.hull * 2) ∧
    length (subbodies c) = Z.to_nat (2 + 1) ∧
    subbodies c !! 0 = Some body_slice' ∧
    ∀ i, (1 ≤ i ≤ 2)%Z →
      ∃ copy_i,
        subbodies c !! Z.to_nat i = Some copy_i ∧
        let moved := @Body_translate Demo.universe Demo.even
                       (@Body_copy Demo.universe Demo.even body_slice')
                       (@coord_mul Demo.universe Demo.even i <$> [1; 0; 0]%Z) in
        mesh copy_i = mesh moved ∧
        nb_faces copy_i = nb_faces moved ∧
        dofs copy_i = dofs moved ∧
        nb_matrices_to_keep copy_i = (nb_matrices_to_keep moved * (2 + 1))%Z ∧
        name copy_i = "repetition_" +:+ pretty i +:+ "_of_" +:+ name Demo.hull ∧
        name copy_i ≠ name Demo.hull.
Proof.
  apply (@translation_generator_sequence Demo.universe Demo.even Demo.hull
           [1; 0; 0]%Z (PyInt 2) 2); [reflexivity | lia | reflexivity].
Defined.

(** * Further properties of the constructors *)

Section Construction.
Context `{C : Collaborators}.

Lemma app_string_inj_r (s1 s2 t : string) : s1 +:+ t = s2 +:+ t → s1 = s2.
Proof.
  revert s2. induction s1 as [|a s1 IH]; intros [|b s2] Heq; [done| | |].
  - apply (f_equal String.length) in Heq.
    rewrite !length_app_string in Heq. simpl in Heq. lia.
  - apply (f_equal String.length) in Heq.
    rewrite !length_app_string in Heq. simpl in Heq. lia.
  - change (String a (s1 +:+ t) = String b (s2 +:+ t)) in Heq.
    injection Heq as -> Heq. f_equal. by apply IH.
Qed.

(** The keys of the loop that renames the degrees of freedom: exactly the
    prefixed keys of the original, and as many entries. *)
Lemma renamed_dofs_domain (prefix : string)
    (g : list DofRow → list DofRow) (d : gmap string (list DofRow)) :
  let renamed := map_fold (λ name dof (acc : gmap string (list DofRow)),
                             <[prefix +:+ name := g dof]> acc) ∅ d in
  (∀ k, is_Some (renamed !! k) ↔
        ∃ key, k = prefix +:+ key ∧ is_Some (d !! key)) ∧
  size renamed = size d.
Proof.
  cbv zeta.
  apply (map_fold_weak_ind (λ r (m : gmap string (list DofRow)),
           (∀ k, is_Some (r !! k) ↔
                 ∃ key, k = prefix +:+ key ∧ is_Some (m !! key)) ∧
           size r = size m)).
  - split; [|by rewrite !map_size_empty]. intros k. rewrite lookup_empty. split.
    + by intros [? ?].
    + intros (key & _ & Hkey). rewrite lookup_empty in Hkey. by destruct Hkey.
  - intros i x m r Hi [IHdom IHsize].
    assert (Hfresh : r !! (prefix +:+ i) = None).
    { apply eq_None_not_Some. intros (key & Heq & Hkey)%IHdom.
      apply String.app_inj in Heq as <-. rewrite Hi in Hkey. by destruct Hkey. }
    split; [|by rewrite !map_size_insert_None, IHsize].
    intros k. destruct (decide (k = prefix +:+ i)) as [->|Hne].
    + rewrite lookup_insert_eq. split; [|by eauto].
      intros _. exists i. by rewrite lookup_insert_eq.
    + rewrite lookup_insert_ne by done. rewrite IHdom. split.
      * intros (key & -> & Hkey). exists key. split; [done|].
        rewrite lookup_insert_ne; [done | by intros ->].
      * intros (key & -> & Hkey). exists key. split; [done|].
        rewrite lookup_insert_ne in Hkey; [done | by intros ->].
Qed.

(** The degrees of freedom of a reflection composite: under the key
    [mirrored_] + name, the original array followed by itself, twice as
    long. *)
Theorem reflection_dofs_duplicated (half half' : Body) (plane : Plane)
    (c : Collection) (key : string) (dof : list DofRow) :
  ReflectionSymmetry_init half plane = (half', Ok c) →
  dofs half !! key = Some dof →
  ∃ v, coll_dofs c !! ("mirrored_" +:+ key) = Some v ∧
       length v = 2 * length dof ∧
       take (length dof) v = dof ∧
       drop (length dof) v = dof.
Proof.
  intros Hinit Hdof. exists (dof ++ dof).
  rewrite (reflection_dofs _ _ _ _ _ Hinit), Hdof.
  split; [done|]. rewrite length_app. split; [lia|].
  split; [by rewrite take_app_length | by rewrite drop_app_length].
Qed.

(** The degrees of freedom of a reflection composite have the renamed keys
    of the original and no other: a key is present exactly when it is
    [mirrored_] + name for a name present in the half, and there are as
    many entries as in the half. *)
Theorem reflection_dofs_keys (half half' : Body) (plane : Plane)
    (c : Collection) :
  ReflectionSymmetry_init half plane = (half', Ok c) →
  (∀ k, is_Some (coll_dofs c !! k) ↔
        ∃ key, k = "mirrored_" +:+ key ∧ is_Some (dofs half !! key)) ∧
  size (coll_dofs c) = size (dofs half).
Proof.
  intros [= <- <-]. simpl.
  apply (renamed_dofs_domain "mirrored_" (λ dof, np_concatenate [dof; dof])).
Qed.

(** The degrees of freedom of a translation composite have the renamed
    keys of the slice and no other: a key is present exactly when it is
    [translated_] + name for a name present in the slice, and there are as
    many entries as in the slice. *)
Theorem translation_dofs_keys (body_slice body_slice' : Body)
    (translation : list Coord) (nb_repetitions : pyvalue) (c : Collection) :
  TranslationalSymmetry_init body_slice translation nb_repetitions
    = (body_slice', Ok c) →
  (∀ k, is_Some (coll_dofs c !! k) ↔
        ∃ key, k = "translated_" +:+ key ∧ is_Some (dofs body_slice !! key)) ∧
  size (coll_dofs c) = size (dofs body_slice).
Proof.
  intros Hinit. unfold TranslationalSymmetry_init in Hinit.
  destruct (as_int nb_repetitions) as [n|]; [|done].
  case_bool_decide; [|done]. case_bool_decide; [|done].
  injection Hinit as <- <-. simpl.
  apply (renamed_dofs_domain "translated_"
           (λ dof, np_concatenate (list_mul [dof] n))).
Qed.

(** The three labels a reflection construction hands out are pairwise
    different: the half keeps its name, the mirror image is
    [mirror_of_] + name and the composite [mirrored_] + name. *)
Theorem reflection_labels_distinct (half half' : Body) (plane : Plane)
    (c : Collection) :
  ReflectionSymmetry_init half plane = (half', Ok c) →
  ∃ other_half,
    subbodies c = [half'; other_half] ∧
    name half' = name half ∧
    name other_half = "mirror_of_" +:+ name half ∧
    coll_name c = "mirrored_" +:+ name half ∧
    name other_half ≠ name half' ∧
    coll_name c ≠ name half' ∧
    coll_name c ≠ name other_half.
Proof.
  intros [= <- <-]. eexists. split; [reflexivity|]. simpl.
  repeat split; intros Heq; apply (f_equal String.length) in Heq;
    rewrite !length_app_string in Heq; simpl in Heq; lia.
Qed.

Lemma repetition_name_inj (base : string) :
  Inj (=) (=) (λ i : Z, "repetition_" +:+ pretty i +:+ "_of_" +:+ base).
Proof.
  intros i j Heq. apply String.app_inj in Heq.
  apply app_string_inj_r in Heq. by apply pretty_Z_inj in Heq.
Qed.

(** The labels of a translation composite are unique: no two generators
    share a name, and the name of the composite, [repeated_] + name, is the
    name of none of them. *)
Theorem translation_labels_distinct (body_slice body_slice' : Body)
    (translation : list Coord) (nb_repetitions : pyvalue) (c : Collection) :
  TranslationalSymmetry_init body_slice translation nb_repetitions
    = (body_slice', Ok c) →
  NoDup (name <$> subbodies c) ∧
  coll_name c = "repeated_" +:+ name body_slice ∧
  coll_name c ∉ name <$> subbodies c.
Proof.
  intros Hinit. unfold TranslationalSymmetry_init in Hinit.
  destruct (as_int nb_repetitions) as [n|]; [|done].
  case_bool_decide; [|done]. case_bool_decide; [|done].
  injection Hinit as <- <-. simpl. rewrite foldl_append. simpl.
  rewrite <- list_fmap_compose.
  assert (Hnames : ∀ x : string,
            x ∈ (name ∘ new_slice
                   (set_nb_matrices_to_keep body_slice
                      (nb_matrices_to_keep body_slice * n)) translation n)
                <$> seqZ 1 n →
            ∃ i : Z, x = "repetition_" +:+ pretty i +:+ "_of_" +:+ name body_slice).
  { intros x (i & -> & _)%list_elem_of_fmap. by exists i. }
  split; [|split; [done|]].
  - apply NoDup_cons. split.
    + intros (i & Heq)%Hnames. apply (f_equal String.length) in Heq.
      rewrite !length_app_string in Heq. simpl in Heq. lia.
    + apply NoDup_fmap_2_strong; [|apply NoDup_seqZ].
      intros i j _ _ Heq. by apply (repetition_name_inj (name body_slice)).
  - intros [Heq|(i & Heq)%Hnames]%elem_of_cons;
      apply (f_equal String.length) in Heq;
      rewrite !length_app_string in Heq; simpl in Heq; lia.
Qed.

(** A translation vector that has not exactly three components is refused
    with [AssertionError], whatever the repetition count; no composite is
    created and the slice is left as it was. *)
Theorem translation_bad_vector (body_slice : Body) (translation : list Coord)
    (nb_repetitions : pyvalue) :
  length translation ≠ 3 →
  TranslationalSymmetry_init body_slice translation nb_repetitions
    = (body_slice, Raise AssertionError).
Proof.
  intros Hlen. unfold TranslationalSymmetry_init.
  destruct (as_int nb_repetitions) as [n|]; [|done].
  case_bool_decide; [|done]. by rewrite bool_decide_eq_false_2.
Qed.

(** The generators of a translation composite all have the face count of
    the slice; with [n] repetitions the composite has [(n + 1) f] faces and
    its grid is made of [n + 1] lines of [n + 1] blocks of [f] by [f]
    entries, block [(i, j)] starting at row [i f] and column [j f]. *)
Theorem translation_grid_uniform (body_slice body_slice' : Body)
    (translation : list Coord) (nb_repetitions : pyvalue) (n : Z)
    (c : Collection) :
  faces_preserved →
  as_int nb_repetitions = Some n →
  TranslationalSymmetry_init body_slice translation nb_repetitions
    = (body_slice', Ok c) →
  let f := nb_faces body_slice in
  let m := Z.to_nat n + 1 in
  length (subbodies c) = m ∧
  Forall (λ g, nb_faces g = f) (subbodies c) ∧
  coll_nb_faces c = m * f ∧
  length (matrix_blocks c) = m ∧
  Forall (λ line, length line = m) (matrix_blocks c) ∧
  ∀ i j, i < m → j < m →
    block_at c i j
    = Some (Slice (Some (i * f)) (Some (i * f + f)),
            Slice (Some (j * f)) (Some (j * f + f))).
Proof.
  intros Hfaces Hint Hinit f m.
  destruct (translation_generators _ _ _ _ _ Hfaces Hinit)
    as (n' & Hint' & Hn & Hsub & Hnb).
  assert (n' = n) as -> by congruence.
  assert (Hlen : length (subbodies c) = m).
  { rewrite Hsub. simpl. rewrite length_fmap, length_seqZ. unfold m. lia. }
  rewrite Hlen in Hnb. fold f in Hnb.
  split; [done|]. split.
  { apply Forall_lookup. intros k g Hg.
    assert (Hk : (nb_faces <$> subbodies c) !! k = Some (nb_faces g))
      by (by rewrite list_lookup_fmap, Hg).
    rewrite Hnb in Hk. by apply lookup_replicate in Hk as [-> _]. }
  split.
  { unfold coll_nb_faces. rewrite Hnb. apply sum_list_replicate. }
  rewrite (matrix_blocks_uniform c m f Hnb).
  split; [by rewrite length_fmap, length_seq|]. split.
  { rewrite Forall_fmap. apply Forall_forall. intros i _. simpl.
    by rewrite length_fmap, length_seq. }
  intros i j Hi Hj. rewrite (block_at_uniform c m f i j Hnb Hi Hj).
  unfold uniform_block. simpl. do 4 f_equal; lia.
Qed.

(** A translation construction succeeds exactly when the repetition count
    is an [int] (a [bool] counts as one) that is at least 1 and the
    translation has three components; in every other case it raises
    [AssertionError] and leaves the slice as it was. *)
Theorem translation_construction_outcome (body_slice : Body)
    (translation : list Coord) (nb_repetitions : pyvalue) :
  let valid := ∃ n, as_int nb_repetitions = Some n ∧ (1 ≤ n)%Z ∧
                    length translation = 3 in
  (valid ↔ ∃ c, (TranslationalSymmetry_init body_slice translation
                   nb_repetitions).2 = Ok c) ∧
  (¬ valid →
   TranslationalSymmetry_init body_slice translation nb_repetitions
   = (body_slice, Raise AssertionError)).
Proof.
  cbv zeta. unfold TranslationalSymmetry_init.
  destruct (as_int nb_repetitions) as [n|].
  - case_bool_decide as Hn; simpl.
    + case_bool_decide as Hlen; simpl.
      * split; [|intros []; by exists n]. split; [by eauto|]. intros _. by exists n.
      * split; [|done]. split; [|by intros [? ?]].
        by intros (? & [= <-] & _ & ?).
    + split; [|done]. split; [|by intros [? ?]].
      by intros (? & [= <-] & ? & _).
  - split; [|done]. split; [by intros (? & ? & _) | by intros [? ?]].
Qed.
End Construction.

(** * Further properties of the assembly *)

Section Assembly.
Context `{C : Collaborators}.

(** The accelerated translation path on a constructed composite, with the
    kernel results it used. *)
Lemma translation_runs_results (body_slice body_slice' : Body)
    (translation : list Coord) (nb_repetitions : pyvalue) (c : Collection)
    (kwargs : Kwargs) (log : list Call) :
  faces_preserved →
  TranslationalSymmetry_init body_slice translation nb_repetitions
    = (body_slice', Ok c) →
  first_line_ok c kwargs = true →
  ∃ pairs S V,
    Forall2 (λ g p, Body_build_matrices body_slice' g kwargs = Ok p ∧
                    well_shaped p.1 (nb_faces body_slice) (nb_faces body_slice) = true ∧
                    well_shaped p.2 (nb_faces body_slice) (nb_faces body_slice) = true)
            (subbodies c) pairs ∧
    TranslationalSymmetry_build_matrices c Self false kwargs log =
      (Ok (S, V), log ++ ((λ g, (body_slice', g, kwargs)) <$> subbodies c)) ∧
    assembled S pairs.*1 (nb_faces body_slice) ∧
    assembled V pairs.*2 (nb_faces body_slice).
Proof.
  intros Hfaces Hinit Hok.
  destruct (translation_generators _ _ _ _ _ Hfaces Hinit)
    as (n & Hint & Hn & Hsub & Hnb).
  unfold first_line_ok in Hok. rewrite Hsub in Hok. rewrite <- Hsub in Hok.
  assert (Hall : Forall (λ g, nb_faces g = nb_faces body_slice) (subbodies c)).
  { apply Forall_lookup. intros k g Hg.
    assert (Hk : (nb_faces <$> subbodies c) !! k = Some (nb_faces g))
      by (by rewrite list_lookup_fmap, Hg).
    rewrite Hnb in Hk. by apply lookup_replicate in Hk as [-> _]. }
  assert (Hfirst : subbodies c !! 0 = Some body_slice') by (by rewrite Hsub).
  destruct (first_line_results (subbodies c) body_slice' (nb_faces body_slice) kwargs)
    as (pairs & Hpairs); [|done|done|].
  { rewrite Forall_lookup in Hall. by apply (Hall 0). }
  destruct (translation_accelerated c body_slice' (nb_faces body_slice) kwargs log pairs)
    as (S & V & Hrun & HS & HV); try done.
  by exists pairs, S, V.
Qed.

(** On the accelerated path of a reflection composite both matrices are
    [2 f] by [2 f], and the two evaluated quarters hold the entries the
    kernel returned, converted to single precision: the top-left quarter
    those of (half, half), the top-right quarter those of (half, mirror).
    Nothing of the uninitialised buffer is left in them. *)
Theorem reflection_quarters_evaluated (half half' : Body) (plane : Plane)
    (c : Collection) (kwargs : Kwargs) (log : list Call) :
  faces_preserved →
  ReflectionSymmetry_init half plane = (half', Ok c) →
  first_line_ok c kwargs = true →
  ∃ other_half s00 v00 s01 v01 S V log',
    subbodies c = [half'; other_half] ∧
    Body_build_matrices half' half' kwargs = Ok (s00, v00) ∧
    Body_build_matrices half' other_half kwargs = Ok (s01, v01) ∧
    ReflectionSymmetry_build_matrices c Self false kwargs log
      = (Ok (S, V), log') ∧
    let f := nb_faces half in
    well_shaped S (2 * f) (2 * f) = true ∧
    well_shaped V (2 * f) (2 * f) = true ∧
    ∀ i j, i < f → j < f →
      cell S i j = convert (dtype s00) complex64 <$> cell s00 i j ∧
      cell S i (f + j) = convert (dtype s01) complex64 <$> cell s01 i j ∧
      cell V i j = convert (dtype v00) complex64 <$> cell v00 i j ∧
      cell V i (f + j) = convert (dtype v01) complex64 <$> cell v01 i j.
Proof.
  intros Hfaces Hinit Hok.
  destruct (reflection_runs half half' plane c kwargs log Hfaces Hinit Hok)
    as (other_half & s00 & v00 & s01 & v01 & S & V & Hsub & H00 & H01 & Hrun
        & (HS & _ & HSc) & (HV & _ & HVc)).
  exists other_half, s00, v00, s01, v01, S, V. eexists.
  do 4 (split; [done|]). cbv zeta. do 2 (split; [done|]).
  intros i j Hi Hj.
  pose proof (HSc 0 0 s00 i j) as HS00. pose proof (HSc 0 1 s01 i j) as HS01.
  pose proof (HVc 0 0 v00 i j) as HV00. pose proof (HVc 0 1 v01 i j) as HV01.
  simpl in HS00, HS01, HV00, HV01.
  replace (nb_faces half + 0 + j) with (nb_faces half + j) in HS01, HV01 by lia.
  repeat split; [apply HS00 | apply HS01 | apply HV00 | apply HV01];
    (done || lia).
Qed.

(** On the accelerated path of a translation composite with [m]
    generators of [f] faces, both matrices are [m f] by [m f] and every
    entry is an entry the kernel returned, converted to single precision:
    block [(i, j)] holds the result of the first generator against
    generator [|j - i|]. *)
Theorem translation_blocks_evaluated (body_slice body_slice' : Body)
    (translation : list Coord) (nb_repetitions : pyvalue) (c : Collection)
    (kwargs : Kwargs) (log : list Call) :
  faces_preserved →
  TranslationalSymmetry_init body_slice translation nb_repetitions
    = (body_slice', Ok c) →
  first_line_ok c kwargs = true →
  ∃ S V log',
    TranslationalSymmetry_build_matrices c Self false kwargs log
      = (Ok (S, V), log') ∧
    let f := nb_faces body_slice in
    let m := length (subbodies c) in
    well_shaped S (m * f) (m * f) = true ∧
    well_shaped V (m * f) (m * f) = true ∧
    ∀ i j g s v a b, i < m → j < m →
      subbodies c !! Z.abs_nat (Z.of_nat j - Z.of_nat i) = Some g →
      Body_build_matrices body_slice' g kwargs = Ok (s, v) →
      a < f → b < f →
      cell S (i * f + a) (j * f + b) = convert (dtype s) complex64 <$> cell s a b ∧
      cell V (i * f + a) (j * f + b) = convert (dtype v) complex64 <$> cell v a b.
Proof.
  intros Hfaces Hinit Hok.
  destruct (translation_runs_results _ _ _ _ _ kwargs log Hfaces Hinit Hok)
    as (pairs & S & V & Hpairs & Hrun & (HS & _ & HSc) & (HV & _ & HVc)).
  pose proof (Forall2_length _ _ _ Hpairs) as Hlen.
  rewrite length_fmap, <- Hlen in HS, HV, HSc, HVc.
  do 3 eexists. split; [exact Hrun|]. cbv zeta. do 2 (split; [done|]).
  intros i j g s v a b Hi Hj Hg Hcall Ha Hb.
  destruct (Forall2_lookup_l _ _ _ _ _ Hpairs Hg) as (p & Hp & Hcall' & _).
  assert (p = (s, v)) as -> by congruence.
  split.
  - apply HSc; try done. by rewrite list_lookup_fmap, Hp.
  - apply HVc; try done. by rewrite list_lookup_fmap, Hp.
Qed.

(** The kernel evaluations of the accelerated paths, in order: the first
    generator against each generator in turn, every time with the keyword
    arguments exactly as [build_matrices] received them. *)
Theorem accelerated_evaluations_in_order :
  faces_preserved →
  (∀ half half' plane c kwargs log,
     ReflectionSymmetry_init half plane = (half', Ok c) →
     first_line_ok c kwargs = true →
     ∃ SV,
       ReflectionSymmetry_build_matrices c Self false kwargs log
         = (Ok SV, log ++ ((λ g, (half', g, kwargs)) <$> subbodies c))) ∧
  (∀ body_slice body_slice' translation nb_repetitions c kwargs log,
     TranslationalSymmetry_init body_slice translation nb_repetitions
       = (body_slice', Ok c) →
     first_line_ok c kwargs = true →
     ∃ SV,
       TranslationalSymmetry_build_matrices c Self false kwargs log
         = (Ok SV, log ++ ((λ g, (body_slice', g, kwargs)) <$> subbodies c))).
Proof.
  intros Hfaces. split.
  - intros half half' plane c kwargs log Hinit Hok.
    destruct (reflection_runs half half' plane c kwargs log Hfaces Hinit Hok)
      as (other_half & s00 & v00 & s01 & v01 & S & V & Hsub & _ & _ & Hrun & _).
    exists (S, V). by rewrite Hsub.
  - intros body_slice body_slice' translation nb_repetitions c kwargs log Hinit Hok.
    destruct (translation_runs _ _ _ _ _ kwargs log Hfaces Hinit Hok)
      as (pairs & S & V & _ & Hrun & _).
    by exists (S, V).
Qed.

(** The matrices of the accelerated translation path are symmetric by
    blocks, whatever the kernel answers: block [(i, j)] equals block
    [(j, i)]. *)
Theorem translation_blocks_symmetric (body_slice body_slice' : Body)
    (translation : list Coord) (nb_repetitions : pyvalue) (c : Collection)
    (kwargs : Kwargs) (log : list Call) :
  faces_preserved →
  TranslationalSymmetry_init body_slice translation nb_repetitions
    = (body_slice', Ok c) →
  first_line_ok c kwargs = true →
  ∃ S V log',
    TranslationalSymmetry_build_matrices c Self false kwargs log
      = (Ok (S, V), log') ∧
    ∀ i j, i < length (subbodies c) → j < length (subbodies c) →
      ∃ block_ij block_ji,
        block_at c i j = Some block_ij ∧
        block_at c j i = Some block_ji ∧
        getitem S block_ij = getitem S block_ji ∧
        getitem V block_ij = getitem V block_ji.
Proof.
  intros Hfaces Hinit Hok.
  destruct (translation_runs _ _ _ _ _ kwargs log Hfaces Hinit Hok)
    as (pairs & S & V & Hlen & Hrun & HS & HV).
  destruct (translation_generators _ _ _ _ _ Hfaces Hinit)
    as (n & _ & _ & _ & Hnb).
  do 3 eexists. split; [exact Hrun|].
  intros i j Hi Hj.
  exists (uniform_block (nb_faces body_slice) i j),
         (uniform_block (nb_faces body_slice) j i).
  split; [by eapply block_at_uniform|]. split; [by eapply block_at_uniform|].
  split.
  - apply (assembled_blocks_equal S pairs.*1);
      rewrite ?length_fmap, ?Hlen; (done || lia).
  - apply (assembled_blocks_equal V pairs.*2);
      rewrite ?length_fmap, ?Hlen; (done || lia).
Qed.

(** On a reflection composite the two classes assemble alike: the
    accelerated path of [TranslationalSymmetry.build_matrices], run on the
    composite, makes the same evaluations and returns the same matrices as
    that of [ReflectionSymmetry.build_matrices]. *)
Theorem reflection_is_translation_of_two (half half' : Body) (plane : Plane)
    (c : Collection) (kwargs : Kwargs) (log : list Call) :
  faces_preserved →
  ReflectionSymmetry_init half plane = (half', Ok c) →
  first_line_ok c kwargs = true →
  ∃ SV log',
    ReflectionSymmetry_build_matrices c Self false kwargs log = (Ok SV, log') ∧
    TranslationalSymmetry_build_matrices c Self false kwargs log = (Ok SV, log').
Proof.
  intros Hfaces Hinit Hok.
  destruct (reflection_runs half half' plane c kwargs log Hfaces Hinit Hok)
    as (other_half & s00 & v00 & s01 & v01 & S & V & Hsub & H00 & H01 & Hrun
        & HS & HV).
  destruct (reflection_generators half half' plane c Hfaces Hinit)
    as (other_half' & Hsub' & Hf0 & Hf1).
  assert (other_half' = other_half) as -> by congruence.
  assert (Hshapes : well_shaped s00 (nb_faces half) (nb_faces half) = true ∧
                    well_shaped v00 (nb_faces half) (nb_faces half) = true ∧
                    well_shaped s01 (nb_faces half) (nb_faces half) = true ∧
                    well_shaped v01 (nb_faces half) (nb_faces half) = true).
  { unfold first_line_ok in Hok. rewrite Hsub in Hok. simpl in Hok.
    unfold kernel_ok in Hok. rewrite H00, H01, Hf0, Hf1 in Hok.
    rewrite !andb_true_iff in Hok. tauto. }
  destruct Hshapes as (Hs00 & Hv00 & Hs01 & Hv01).
  destruct (translation_accelerated c half' (nb_faces half) kwargs log
              [(s00, v00); (s01, v01)]) as (S' & V' & Hrun' & HS' & HV').
  { by rewrite Hsub. }
  { rewrite Hsub. simpl. by rewrite Hf0, Hf1. }
  { rewrite Hsub. by repeat constructor. }
  exists (S, V). eexists. split; [exact Hrun|].
  rewrite Hrun', Hsub. simpl.
  by rewrite (assembled_unique S S' _ _ HS HS'), (assembled_unique V V' _ _ HV HV').
Qed.

(** A loop whose body raises at iteration [k], after [k] iterations that
    kept the invariant, stops there with the outcome of that iteration. *)
Lemma foldM_raises {A B} (I : nat → A → list Call → Prop)
    (f : A → B → M A) (l : list B) (k : nat) (x : B) (e : exn)
    (a : A) (log : list Call) :
  I 0 a log →
  (∀ j y a log, j < k → l !! j = Some y → I j a log →
     ∃ a' log', f a y log = (Ok a', log') ∧ I (S j) a' log') →
  l !! k = Some x →
  (∀ a log, I k a log → (f a x log).1 = Raise e) →
  ∃ a' log', I k a' log' ∧ foldM f a l log = f a' x log'.
Proof.
  revert I k a log. induction l as [|y l IH]; intros I k a log H0 Hstep Hx Hfail;
    [done|].
  destruct k as [|k].
  - injection Hx as ->. exists a, log. split; [done|]. simpl.
    specialize (Hfail a log H0). unfold mbind, M_bind.
    destruct (f a x log) as [[a'|e'] log']; simpl in Hfail; [done|].
    by injection Hfail as ->.
  - destruct (Hstep 0 y a log) as (a1 & log1 & Hf & H1); [lia | done | done |].
    destruct (IH (λ j, I (S j)) k a1 log1 H1) as (a' & log' & HI & Hfold);
      [|done|done|].
    { intros j z a2 log2 Hj Hz. apply (Hstep (S j)); [lia | done]. }
    exists a', log'. split; [done|]. simpl. by rewrite (bind_ok _ _ _ _ _ Hf).
Qed.

Lemma call_kernel_raises (a b : Body) (kwargs : Kwargs) (log : list Call)
    (e : exn) :
  Body_build_matrices a b kwargs = Raise e →
  call_kernel a b kwargs log = (Raise e, log ++ [(a, b, kwargs)]).
Proof. intros H. unfold call_kernel. by rewrite H. Qed.

(** An exception of the kernel goes through the accelerated path of a
    reflection composite unchanged, and stops it at once: raised by the
    first evaluation, it comes out after that single evaluation; raised by
    the second, after these two.  No matrix is returned. *)
Theorem reflection_kernel_failure (half half' : Body) (plane : Plane)
    (c : Collection) (kwargs : Kwargs) (log : list Call) (e : exn) :
  faces_preserved →
  ReflectionSymmetry_init half plane = (half', Ok c) →
  ∃ other_half,
    subbodies c = [half'; other_half] ∧
    (Body_build_matrices half' half' kwargs = Raise e →
     ReflectionSymmetry_build_matrices c Self false kwargs log
       = (Raise e, log ++ [(half', half', kwargs)])) ∧
    (kernel_ok kwargs half' half' = true →
     Body_build_matrices half' other_half kwargs = Raise e →
     ReflectionSymmetry_build_matrices c Self false kwargs log
       = (Raise e, log ++ [(half', half', kwargs); (half', other_half, kwargs)])).
Proof.
  intros Hfaces Hinit.
  destruct (reflection_generators half half' plane c Hfaces Hinit)
    as (other_half & Hsub & Hf0 & Hf1).
  pose proof (reflection_nb_faces half half' plane c Hfaces Hinit) as Hn.
  assert (Hg0 : subbodies c !! 0 = Some half') by (by rewrite Hsub).
  assert (Hg1 : subbodies c !! 1 = Some other_half) by (by rewrite Hsub).
  exists other_half. split; [done|]. split.
  - intros Hraise. unfold ReflectionSymmetry_build_matrices.
    cbn [is_self negb andb deref body_nb_faces].
    do 2 (erewrite bind_ok by (by apply subscript_ok)).
    by erewrite bind_raise by (by apply call_kernel_raises).
  - intros Hok Hraise. unfold kernel_ok in Hok.
    destruct (Body_build_matrices half' half' kwargs) as [[s00 v00]|] eqn:H00;
      [|done].
    rewrite Hf0 in Hok. apply andb_true_iff in Hok as [Hs00 Hv00].
    destruct (reflection_chain (np_empty 0 (2 * nb_faces half, 2 * nb_faces half)
                                  complex64) s00 s00 (nb_faces half))
      as (S1 & _ & _ & _ & HS1 & _); try done; [apply np_empty_shaped|].
    destruct (reflection_chain (np_empty 1 (2 * nb_faces half, 2 * nb_faces half)
                                  complex64) v00 v00 (nb_faces half))
      as (V1 & _ & _ & _ & HV1 & _); try done; [apply np_empty_shaped|].
    unfold ReflectionSymmetry_build_matrices.
    cbn [is_self negb andb deref body_nb_faces]. rewrite Hn.
    do 2 (erewrite bind_ok by (by apply subscript_ok)).
    erewrite bind_ok by (by apply call_kernel_ok).
    erewrite bind_ok by (by apply assign_pair_ok).
    do 2 (erewrite bind_ok by (by apply subscript_ok)).
    erewrite bind_raise by (by apply call_kernel_raises).
    by rewrite <- app_assoc.
Qed.

(** An exception of the kernel goes through the accelerated path of a
    translation composite unchanged: when the kernel honours its interface
    on the generators before generator [k] and raises on generator [k], the
    path raises the same exception, having evaluated the first generator
    against generators [0] to [k] and no other.  No matrix is returned. *)
Theorem translation_kernel_failure (body_slice body_slice' : Body)
    (translation : list Coord) (nb_repetitions : pyvalue) (c : Collection)
    (kwargs : Kwargs) (log : list Call) (k : nat) (g : Body) (e : exn) :
  faces_preserved →
  TranslationalSymmetry_init body_slice translation nb_repetitions
    = (body_slice', Ok c) →
  subbodies c !! k = Some g →
  forallb (kernel_ok kwargs body_slice') (take k (subbodies c)) = true →
  Body_build_matrices body_slice' g kwargs = Raise e →
  TranslationalSymmetry_build_matrices c Self false kwargs log
    = (Raise e,
       log ++ ((λ g, (body_slice', g, kwargs)) <$> take (S k) (subbodies c))).
Proof.
  intros Hfaces Hinit Hg Hok Hraise.
  destruct (translation_generators _ _ _ _ _ Hfaces Hinit)
    as (n & Hint & Hn & Hsub & Hnb).
  set (f := nb_faces body_slice) in *.
  set (m := length (subbodies c)) in *.
  assert (Hkm : k < m) by (by apply lookup_lt_Some in Hg).
  assert (Hfirst : subbodies c !! 0 = Some body_slice') by (by rewrite Hsub).
  assert (Hall : Forall (λ g, nb_faces g = f) (take k (subbodies c))).
  { apply Forall_take, Forall_lookup. intros j g' Hg'.
    assert (Hj : (nb_faces <$> subbodies c) !! j = Some (nb_faces g'))
      by (by rewrite list_lookup_fmap, Hg').
    rewrite Hnb in Hj. by apply lookup_replicate in Hj as [-> _]. }
  destruct (first_line_results (take k (subbodies c)) body_slice' f kwargs)
    as (pairs & Hpairs); [|done|done|].
  { assert (Hj : (nb_faces <$> subbodies c) !! 0 = Some (nb_faces body_slice'))
      by (by rewrite list_lookup_fmap, Hfirst).
    rewrite Hnb in Hj. by apply lookup_replicate in Hj as [-> _]. }
  assert (Hn' : coll_nb_faces c = m * f).
  { unfold coll_nb_faces. rewrite Hnb. apply sum_list_replicate. }
  unfold TranslationalSymmetry_build_matrices.
  cbn [is_self negb andb deref body_nb_faces]. rewrite Hn'.
  erewrite bind_ok
    by (apply subscript_ok, (matrix_blocks_line c m f 0); (done || lia)).
  lazymatch goal with
  | |- context [(foldM ?body ?init ?l ≫= _) ?lg] =>
      destruct (foldM_raises
        (λ j (SV : ndarray * ndarray) (log' : list Call),
           first_line_filled m f j pairs.*1 SV.1 ∧
           first_line_filled m f j pairs.*2 SV.2 ∧
           log' = log ++ ((λ g, (body_slice', g, kwargs)) <$> take j (subbodies c)))
        body l k (uniform_block f 0 k, g) e init lg)
        as ([Sk Vk] & logk & (_ & _ & ->) & Hloop)
  end.
  - simpl. rewrite app_nil_r.
    repeat split; try apply np_empty_shaped; intros; lia.
  - intros j [blk body] [Sa Va] log' Hj Hlookup (HS & HV & ->).
    apply lookup_zip_with_Some in Hlookup
      as (blk' & body' & [= <- <-] & Hblk & Hbody).
    rewrite uniform_line_lookup in Hblk by lia. injection Hblk as <-.
    assert (Hbody' : take k (subbodies c) !! j = Some body).
    { rewrite lookup_take. by destruct (decide (j < k)); [|lia]. }
    destruct (Forall2_lookup_l _ _ _ _ _ Hpairs Hbody')
      as ([s v] & Hp & Hcall & Hs & Hv).
    destruct (first_line_step m f j pairs.*1 Sa s HS) as (S' & HsetS & HS');
      [lia | by rewrite list_lookup_fmap, Hp | done |].
    destruct (first_line_step m f j pairs.*2 Va v HV) as (V' & HsetV & HV');
      [lia | by rewrite list_lookup_fmap, Hp | done |].
    exists (S', V'),
      (log ++ ((λ g, (body_slice', g, kwargs)) <$> take (S j) (subbodies c))).
    split; [|done].
    erewrite bind_ok by (by apply subscript_ok).
    erewrite bind_ok by (by apply call_kernel_ok).
    rewrite (assign_pair_ok _ _ _ _ _ _ _ _ HsetS HsetV).
    by rewrite (take_S_r _ _ _ Hbody), fmap_app, app_assoc.
  - rewrite lookup_zip_with, uniform_line_lookup by done. simpl. by rewrite Hg.
  - intros [Sa Va] log' _.
    erewrite bind_ok by (by apply subscript_ok).
    by erewrite bind_raise by (by apply call_kernel_raises).
  - erewrite bind_raise; [reflexivity|]. rewrite Hloop.
    erewrite bind_ok by (by apply subscript_ok).
    erewrite bind_raise by (by apply call_kernel_raises).
    by rewrite (take_S_r _ _ _ Hg), fmap_app, app_assoc.
Qed.

Lemma setitem_unfit (a v : ndarray) (b : block) (r0 r1 c0 c1 : nat) :
  slice_bounds b.1 (nrows a) = (r0, r1) →
  slice_bounds b.2 (ncols a) = (c0, c1) →
  broadcastable (nrows v) (r1 - r0) && broadcastable (ncols v) (c1 - c0) = false →
  setitem a b v = Raise ValueError.
Proof. intros Hr Hc Hfit. unfold setitem. by rewrite Hr, Hc, Hfit. Qed.

Lemma setitem_fit (a v : ndarray) (b : block) (r0 r1 c0 c1 : nat) :
  slice_bounds b.1 (nrows a) = (r0, r1) →
  slice_bounds b.2 (ncols a) = (c0, c1) →
  broadcastable (nrows v) (r1 - r0) && broadcastable (ncols v) (c1 - c0) = true →
  ∃ a', setitem a b v = Ok a'.
Proof. intros Hr Hc Hfit. unfold setitem. rewrite Hr, Hc, Hfit. by eexists. Qed.

(** A kernel result that does not fit the quarter it is written to makes
    the accelerated path of a reflection composite raise [ValueError]: when
    one of the two arrays returned for (half, half) has a number of rows or
    of columns that is neither [f] nor 1, the path stops after that single
    evaluation and returns no matrix. *)
Theorem reflection_shape_mismatch (half half' : Body) (plane : Plane)
    (c : Collection) (kwargs : Kwargs) (log : list Call) (s v : ndarray) :
  faces_preserved →
  ReflectionSymmetry_init half plane = (half', Ok c) →
  Body_build_matrices half' half' kwargs = Ok (s, v) →
  let f := nb_faces half in
  broadcastable (nrows s) f && broadcastable (ncols s) f = false ∨
  broadcastable (nrows v) f && broadcastable (ncols v) f = false →
  ReflectionSymmetry_build_matrices c Self false kwargs log
    = (Raise ValueError, log ++ [(half', half', kwargs)]).
Proof.
  intros Hfaces Hinit Hcall f Hunfit.
  destruct (reflection_generators half half' plane c Hfaces Hinit)
    as (other_half & Hsub & Hf0 & Hf1).
  pose proof (reflection_nb_faces half half' plane c Hfaces Hinit) as Hn.
  fold f in Hn.
  assert (Hg0 : subbodies c !! 0 = Some half') by (by rewrite Hsub).
  assert (Hlo : slice_bounds (Slice None (Some f)) (2 * f) = (0, f))
    by (apply slice_bounds_lower; lia).
  unfold ReflectionSymmetry_build_matrices.
  cbn [is_self negb andb deref body_nb_faces]. rewrite Hn.
  do 2 (erewrite bind_ok by (by apply subscript_ok)).
  erewrite bind_ok by (by apply call_kernel_ok).
  erewrite bind_raise; [reflexivity|].
  unfold assign_pair, top_left. rewrite half_double. cbn [fst snd].
  destruct (broadcastable (nrows s) f && broadcastable (ncols s) f) eqn:Hs.
  - destruct Hunfit as [?|Hv]; [done|].
    destruct (setitem_fit (np_empty 0 (2 * f, 2 * f) complex64) s
                (Slice None (Some f), Slice None (Some f)) 0 f 0 f)
      as (S1 & HS1); [done | done | by rewrite Nat.sub_0_r |].
    unfold mbind, M_bind, lift. rewrite HS1.
    by rewrite (setitem_unfit _ v _ 0 f 0 f) by (done || by rewrite Nat.sub_0_r).
  - unfold mbind, M_bind, lift.
    by rewrite (setitem_unfit _ s _ 0 f 0 f) by (done || by rewrite Nat.sub_0_r).
Qed.

Lemma length_accumulate_from (acc : nat) (l : list nat) :
  length (accumulate_from acc l) = length l.
Proof. revert acc. induction l; intros; simpl; by f_equal. Qed.

Lemma accumulate_from_lookup (l : list nat) (acc k : nat) :
  k < length l →
  accumulate_from acc l !! k = Some (acc + sum_list (take (S k) l)).
Proof.
  revert acc k. induction l as [|x l IH]; intros acc k Hk; simpl in Hk; [lia|].
  destruct k as [|k]; simpl.
  - f_equal. lia.
  - rewrite IH by lia. f_equal. simpl. lia.
Qed.

(** The row (or column) ranges of the grid: range [i] goes from the sum of
    the first [i] face counts to the sum of the first [i + 1]. *)
Lemma ranges_lookup (l : list nat) (i : nat) :
  i < length l →
  let offsets := accumulate (0 :: l) in
  zip offsets (tail offsets) !! i
  = Some (sum_list (take i l), sum_list (take (S i) l)).
Proof.
  intros Hi. cbv zeta. unfold accumulate.
  change (accumulate_from 0 (0 :: l)) with (0 :: accumulate_from 0 l).
  cbn [tail]. rewrite lookup_zip_with.
  rewrite (accumulate_from_lookup l 0 i Hi). destruct i as [|i]; simpl.
  - done.
  - rewrite (accumulate_from_lookup l 0 i) by lia. done.
Qed.

Lemma ranges_length (l : list nat) :
  let offsets := accumulate (0 :: l) in
  length (zip offsets (tail offsets)) = length l.
Proof.
  cbv zeta. unfold accumulate.
  change (accumulate_from 0 (0 :: l)) with (0 :: accumulate_from 0 l).
  cbn [tail]. rewrite length_zip_with. cbn [length].
  rewrite length_accumulate_from. lia.
Qed.

Lemma prefix_sum_mono (l : list nat) (k k' : nat) :
  k ≤ k' → sum_list (take k l) ≤ sum_list (take k' l).
Proof.
  revert k k'. induction l as [|x l IH]; intros k k' Hk.
  - by rewrite !take_nil.
  - destruct k as [|k]; [simpl; lia|]. destruct k' as [|k']; [lia|].
    simpl. specialize (IH k k'). lia.
Qed.

Lemma prefix_sum_le (l : list nat) (k : nat) :
  sum_list (take k l) ≤ sum_list l.
Proof.
  destruct (decide (k ≤ length l)).
  - rewrite <- (take_ge l (length l)) at 2 by lia. by apply prefix_sum_mono.
  - rewrite take_ge by lia. done.
Qed.

Lemma prefix_sum_locate (l : list nat) (x : nat) :
  x < sum_list l →
  ∃ i, i < length l ∧ sum_list (take i l) ≤ x < sum_list (take (S i) l).
Proof.
  revert x. induction l as [|f l IH]; intros x Hx; simpl in Hx; [lia|].
  destruct (decide (x < f)) as [Hlt|Hge].
  - exists 0. simpl. lia.
  - destruct (IH (x - f)) as (i & Hi & Hlo & Hhi); [lia|].
    exists (S i). simpl in *. lia.
Qed.

Lemma block_at_lookup (c : Collection) (i j : nat) :
  i < length (subbodies c) → j < length (subbodies c) →
  let faces := nb_faces <$> subbodies c in
  block_at c i j
  = Some (Slice (Some (sum_list (take i faces))) (Some (sum_list (take (S i) faces))),
          Slice (Some (sum_list (take j faces))) (Some (sum_list (take (S j) faces)))).
Proof.
  intros Hi Hj. cbv zeta. unfold block_at, matrix_blocks.
  pose proof (ranges_lookup (nb_faces <$> subbodies c) i) as Hri.
  pose proof (ranges_lookup (nb_faces <$> subbodies c) j) as Hrj.
  rewrite length_fmap in Hri, Hrj. cbv zeta in Hri, Hrj.
  rewrite list_lookup_fmap, Hri by done.
  cbn [fmap option_fmap option_map mbind option_bind].
  by rewrite list_lookup_fmap, Hrj.
Qed.

Lemma block_at_Some (c : Collection) (i j : nat) (b : block) :
  block_at c i j = Some b →
  i < length (subbodies c) ∧ j < length (subbodies c).
Proof.
  pose proof (ranges_length (nb_faces <$> subbodies c)) as Hlen.
  cbv zeta in Hlen. rewrite length_fmap in Hlen.
  unfold block_at, matrix_blocks. cbv zeta.
  set (ranges := zip _ _) in *. intros Hb.
  rewrite list_lookup_fmap in Hb.
  destruct (ranges !! i) as [[lo hi]|] eqn:Hi; [|done].
  cbn [fmap option_fmap option_map mbind option_bind] in Hb.
  rewrite list_lookup_fmap in Hb.
  destruct (ranges !! j) as [[lo' hi']|] eqn:Hj; [|done].
  apply lookup_lt_Some in Hi, Hj. lia.
Qed.

(** The grid of blocks of [TranslationalSymmetry.build_matrices], for any
    collection, whatever the face counts of its sub-bodies: as many lines
    as sub-bodies and as many blocks per line, and every entry of the
    matrix lies in one block and one only. *)
Theorem matrix_blocks_partition (c : Collection) :
  let N := coll_nb_faces c in
  let m := length (subbodies c) in
  length (matrix_blocks c) = m ∧
  Forall (λ line, length line = m) (matrix_blocks c) ∧
  ∀ x y, x < N → y < N →
    ∃ i j b,
      block_at c i j = Some b ∧ in_block b N N x y = true ∧
      ∀ i' j' b', block_at c i' j' = Some b' →
                  in_block b' N N x y = true → i' = i ∧ j' = j.
Proof.
  cbv zeta.
  pose proof (ranges_length (nb_faces <$> subbodies c)) as Hlen.
  cbv zeta in Hlen. rewrite length_fmap in Hlen.
  split; [by unfold matrix_blocks; rewrite length_fmap|]. split.
  { unfold matrix_blocks. rewrite Forall_fmap. apply Forall_forall.
    intros [lo hi] _. simpl. by rewrite length_fmap. }
  set (faces := nb_faces <$> subbodies c).
  assert (Hin : ∀ k x, in_slice (Slice (Some (sum_list (take k faces)))
                                       (Some (sum_list (take (S k) faces))))
                         (coll_nb_faces c) x = true ↔
                       sum_list (take k faces) ≤ x < sum_list (take (S k) faces)).
  { intros k x. apply in_slice_spec, slice_bounds_both; apply prefix_sum_le. }
  assert (Huniq : ∀ k k' x,
            sum_list (take k faces) ≤ x < sum_list (take (S k) faces) →
            sum_list (take k' faces) ≤ x < sum_list (take (S k') faces) →
            k' = k).
  { intros k k' x Hk Hk'. destruct (decide (k < k')) as [Hlt|Hge].
    - pose proof (prefix_sum_mono faces (S k) k'). lia.
    - destruct (decide (k' < k)) as [Hlt|Hge']; [|lia].
      pose proof (prefix_sum_mono faces (S k') k). lia. }
  intros x y Hx Hy.
  destruct (prefix_sum_locate faces x Hx) as (i & Hi & Hxi).
  destruct (prefix_sum_locate faces y Hy) as (j & Hj & Hyj).
  unfold faces in Hi, Hj. rewrite length_fmap in Hi, Hj.
  exists i, j. eexists. split; [by apply (block_at_lookup c i j)|]. split.
  { unfold in_block. simpl. apply andb_true_iff. split; by apply Hin. }
  intros i' j' b' Hb' Hin'.
  destruct (block_at_Some c i' j' b' Hb') as [Hi' Hj'].
  rewrite (block_at_lookup c i' j' Hi' Hj') in Hb'. injection Hb' as <-.
  unfold in_block in Hin'. simpl in Hin'.
  apply andb_true_iff in Hin' as [Hxi'%Hin Hyj'%Hin].
  split; eapply Huniq; done.
Qed.
End Assembly.

(** * The further properties on concrete composites *)

Lemma reflection_dofs_duplicated_witness :
  dofs Demo.hull !! "Heave" = Some [10; 20]%Z ∧
  ∃ v, coll_dofs Demo.mirrored_hull !! ("mirrored_" +:+ "Heave") = Some v ∧
       length v = 2 * length [10; 20]%Z ∧
       take (length [10; 20]%Z) v = [10; 20]%Z ∧
       drop (length [10; 20]%Z) v = [10; 20]%Z.
Proof.
  assert (Hdof : dofs Demo.hull !! "Heave" = Some [10; 20]%Z)
    by (vm_compute; reflexivity).
  split; [exact Hdof|].
  apply (@reflection_dofs_duplicated Demo.universe Demo.even Demo.hull
           Demo.hull_mirrored 0 Demo.mirrored_hull "Heave" [10; 20]%Z);
    [reflexivity | exact Hdof].
Defined.

Lemma reflection_dofs_keys_witness :
  (∀ k, is_Some (coll_dofs Demo.mirrored_hull !! k) ↔
        ∃ key, k = "mirrored_" +:+ key ∧ is_Some (dofs Demo.hull !! key)) ∧
  size (coll_dofs Demo.mirrored_hull) = size (dofs Demo.hull).
Proof.
  apply (@reflection_dofs_keys Demo.universe Demo.even Demo.hull
           Demo.hull_mirrored 0 Demo.mirrored_hull). reflexivity.
Defined.

Lemma translation_dofs_keys_witness :
  (∀ k, is_Some (coll_dofs (Demo.repeated_hull 2) !! k) ↔
        ∃ key, k = "translated_" +:+ key ∧ is_Some (dofs Demo.hull !! key)) ∧
  size (coll_dofs (Demo.repeated_hull 2)) = size (dofs Demo.hull).
Proof.
  apply (@translation_dofs_keys Demo.universe Demo.even Demo.hull
           (Demo.hull_repeated 2) [1; 0; 0]%Z (PyInt 2) (Demo.repeated_hull 2)).
  reflexivity.
Defined.

Lemma reflection_labels_distinct_witness :
  ∃ other_half,
    subbodies Demo.mirrored_hull = [Demo.hull_mirrored; other_half] ∧
    name Demo.hull_mirrored = name Demo.hull ∧
    name other_half = "mirror_of_" +:+ name Demo.hull ∧
    coll_name Demo.mirrored_hull = "mirrored_" +:+ name Demo.hull ∧
    name other_half ≠ name Demo.hull_mirrored ∧
    coll_name Demo.mirrored_hull ≠ name Demo.hull_mirrored ∧
    coll_name Demo.mirrored_hull ≠ name other_half.
Proof.
  apply (@reflection_labels_distinct Demo.universe Demo.even Demo.hull
           Demo.hull_mirrored 0 Demo.mirrored_hull). reflexivity.
Defined.

Lemma translation_labels_distinct_witness :
  NoDup (name <$> subbodies (Demo.repeated_hull 2)) ∧
  coll_name (Demo.repeated_hull 2) = "repeated_" +:+ name Demo.hull ∧
  coll_name (Demo.repeated_hull 2) ∉ name <$> subbodies (Demo.repeated_hull 2).
Proof.
  apply (@translation_labels_distinct Demo.universe Demo.even Demo.hull
           (Demo.hull_repeated 2) [1; 0; 0]%Z (PyInt 2) (Demo.repeated_hull 2)).
  reflexivity.
Defined.

Lemma translation_bad_vector_witness :
  @TranslationalSymmetry_init Demo.universe Demo.even Demo.hull
    [1; 0]%Z (PyInt 2) = (Demo.hull, Raise AssertionError).
Proof.
  apply (@translation_bad_vector Demo.universe Demo.even). simpl. lia.
Defined.

Lemma translation_construction_outcome_witness :
  @TranslationalSymmetry_init Demo.universe Demo.even Demo.hull
    [1; 0; 0]%Z (PyFloat 1 1) = (Demo.hull, Raise AssertionError).
Proof.
  apply (@translation_construction_outcome Demo.universe Demo.even Demo.hull
           [1; 0; 0]%Z (PyFloat 1 1)).
  intros (n & Hint & _). simpl in Hint. discriminate Hint.
Defined.

Lemma translation_grid_uniform_witness :
  @faces_preserved Demo.universe Demo.even ∧
  let c := Demo.repeated_hull 2 in
  let f := nb_faces Demo.hull in
  let m := Z.to_nat 2 + 1 in
  length (subbodies c) = m ∧
  Forall (λ g, nb_faces g = f) (subbodies c) ∧
  coll_nb_faces c = m * f ∧
  length (matrix_blocks c) = m ∧
  Forall (λ line, length line = m) (matrix_blocks c) ∧
  ∀ i j, i < m → j < m →
    block_at c i j
    = Some (Slice (Some (i * f)) (Some (i * f + f)),
            Slice (Some (j * f)) (Some (j * f + f))).
Proof.
  assert (Hfaces : @faces_preserved Demo.universe Demo.even)
    by (repeat split; intros; reflexivity).
  split; [exact Hfaces|].
  apply (@translation_grid_uniform Demo.universe Demo.even Demo.hull
           (Demo.hull_repeated 2) [1; 0; 0]%Z (PyInt 2) 2 (Demo.repeated_hull 2));
    [exact Hfaces | reflexivity | reflexivity].
Defined.

Lemma reflection_quarters_evaluated_witness :
  @faces_preserved Demo.universe Demo.even ∧
  @first_line_ok Demo.universe Demo.even Demo.mirrored_hull Demo.no_kwargs = true ∧
  ∃ other_half s00 v00 s01 v01 S V log',
    subbodies Demo.mirrored_hull = [Demo.hull_mirrored; other_half] ∧
    @Body_build_matrices Demo.universe Demo.even Demo.hull_mirrored
      Demo.hull_mirrored Demo.no_kwargs = Ok (s00, v00) ∧
    @Body_build_matrices Demo.universe Demo.even Demo.hull_mirrored
      other_half Demo.no_kwargs = Ok (s01, v01) ∧
    @ReflectionSymmetry_build_matrices Demo.universe Demo.even
      Demo.mirrored_hull Self false Demo.no_kwargs [] = (Ok (S, V), log') ∧
    let f := nb_faces Demo.hull in
    well_shaped S (2 * f) (2 * f) = true ∧
    well_shaped V (2 * f) (2 * f) = true ∧
    ∀ i j, i < f → j < f →
      cell S i j = @convert Demo.universe Demo.even (dtype s00) complex64 <$> cell s00 i j ∧
      cell S i (f + j) = @convert Demo.universe Demo.even (dtype s01) complex64 <$> cell s01 i j ∧
      cell V i j = @convert Demo.universe Demo.even (dtype v00) complex64 <$> cell v00 i j ∧
      cell V i (f + j) = @convert Demo.universe Demo.even (dtype v01) complex64 <$> cell v01 i j.
Proof.
  assert (Hfaces : @faces_preserved Demo.universe Demo.even)
    by (repeat split; intros; reflexivity).
  assert (Hok : @first_line_ok Demo.universe Demo.even Demo.mirrored_hull
                  Demo.no_kwargs = true) by (vm_compute; reflexivity).
  split; [exact Hfaces|]. split; [exact Hok|].
  apply (@reflection_quarters_evaluated Demo.universe Demo.even Demo.hull
           Demo.hull_mirrored 0 Demo.mirrored_hull Demo.no_kwargs []);
    [exact Hfaces | reflexivity | exact Hok].
Defined.

Lemma translation_blocks_evaluated_witness :
  @faces_preserved Demo.universe Demo.even ∧
  @first_line_ok Demo.universe Demo.even (Demo.repeated_hull 2) Demo.no_kwargs = true ∧
  ∃ S V log',
    @TranslationalSymmetry_build_matrices Demo.universe Demo.even
      (Demo.repeated_hull 2) Self false Demo.no_kwargs [] = (Ok (S, V), log') ∧
    let f := nb_faces Demo.hull in
    let m := length (subbodies (Demo.repeated_hull 2)) in
    well_shaped S (m * f) (m * f) = true ∧
    well_shaped V (m * f) (m * f) = true ∧
    ∀ i j g s v a b, i < m → j < m →
      subbodies (Demo.repeated_hull 2) !! Z.abs_nat (Z.of_nat j - Z.of_nat i) = Some g →
      @Body_build_matrices Demo.universe Demo.even (Demo.hull_repeated 2) g
        Demo.no_kwargs = Ok (s, v) →
      a < f → b < f →
      cell S (i * f + a) (j * f + b)
        = @convert Demo.universe Demo.even (dtype s) complex64 <$> cell s a b ∧
      cell V (i * f + a) (j * f + b)
        = @convert Demo.universe Demo.even (dtype v) complex64 <$> cell v a b.
Proof.
  assert (Hfaces : @faces_preserved Demo.universe Demo.even)
    by (repeat split; intros; reflexivity).
  assert (Hok : @first_line_ok Demo.universe Demo.even (Demo.repeated_hull 2)
                  Demo.no_kwargs = true) by (vm_compute; reflexivity).
  split; [exact Hfaces|]. split; [exact Hok|].
  apply (@translation_blocks_evaluated Demo.universe Demo.even Demo.hull
           (Demo.hull_repeated 2) [1; 0; 0]%Z (PyInt 2) (Demo.repeated_hull 2)
           Demo.no_kwargs []); [exact Hfaces | reflexivity | exact Hok].
Defined.

Lemma accelerated_evaluations_in_order_witness :
  @faces_preserved Demo.universe Demo.even ∧
  @first_line_ok Demo.universe Demo.even Demo.mirrored_hull Demo.no_kwargs = true ∧
  @first_line_ok Demo.universe Demo.even (Demo.repeated_hull 2) Demo.no_kwargs = true ∧
  (∃ SV,
     @ReflectionSymmetry_build_matrices Demo.universe Demo.even
       Demo.mirrored_hull Self false Demo.no_kwargs []
     = (Ok SV, [] ++ ((λ g, (Demo.hull_mirrored, g, Demo.no_kwargs))
                        <$> subbodies Demo.mirrored_hull))) ∧
  (∃ SV,
     @TranslationalSymmetry_build_matrices Demo.universe Demo.even
       (Demo.repeated_hull 2) Self false Demo.no_kwargs []
     = (Ok SV, [] ++ ((λ g, (Demo.hull_repeated 2, g, Demo.no_kwargs))
                        <$> subbodies (Demo.repeated_hull 2)))).
Proof.
  assert (Hfaces : @faces_preserved Demo.universe Demo.even)
    by (repeat split; intros; reflexivity).
  assert (Hok : @first_line_ok Demo.universe Demo.even Demo.mirrored_hull
                  Demo.no_kwargs = true) by (vm_compute; reflexivity).
  assert (Hok' : @first_line_ok Demo.universe Demo.even (Demo.repeated_hull 2)
                   Demo.no_kwargs = true) by (vm_compute; reflexivity).
  split; [exact Hfaces|]. split; [exact Hok|]. split; [exact Hok'|].
  destruct (@accelerated_evaluations_in_order Demo.universe Demo.even Hfaces)
    as [Hreflection Htranslation].
  split.
  - apply (Hreflection Demo.hull Demo.hull_mirrored 0 Demo.mirrored_hull
             Demo.no_kwargs []); [reflexivity | exact Hok].
  - apply (Htranslation Demo.hull (Demo.hull_repeated 2) [1; 0; 0]%Z (PyInt 2)
             (Demo.repeated_hull 2) Demo.no_kwargs []); [reflexivity | exact Hok'].
Defined.

Lemma translation_blocks_symmetric_witness :
  @faces_preserved Demo.universe Demo.even ∧
  @first_line_ok Demo.universe Demo.even (Demo.repeated_hull 2) Demo.no_kwargs = true ∧
  ∃ S V log',
    @TranslationalSymmetry_build_matrices Demo.universe Demo.even
      (Demo.repeated_hull 2) Self false Demo.no_kwargs [] = (Ok (S, V), log') ∧
    ∀ i j, i < length (subbodies (Demo.repeated_hull 2)) →
           j < length (subbodies (Demo.repeated_hull 2)) →
      ∃ block_ij block_ji,
        block_at (Demo.repeated_hull 2) i j = Some block_ij ∧
        block_at (Demo.repeated_hull 2) j i = Some block_ji ∧
        getitem S block_ij = getitem S block_ji ∧
        getitem V block_ij = getitem V block_ji.
Proof.
  assert (Hfaces : @faces_preserved Demo.universe Demo.even)
    by (repeat split; intros; reflexivity).
  assert (Hok : @first_line_ok Demo.universe Demo.even (Demo.repeated_hull 2)
                  Demo.no_kwargs = true) by (vm_compute; reflexivity).
  split; [exact Hfaces|]. split; [exact Hok|].
  apply (@translation_blocks_symmetric Demo.universe Demo.even Demo.hull
           (Demo.hull_repeated 2) [1; 0; 0]%Z (PyInt 2) (Demo.repeated_hull 2)
           Demo.no_kwargs []); [exact Hfaces | reflexivity | exact Hok].
Defined.

Lemma reflection_is_translation_of_two_witness :
  @faces_preserved Demo.universe Demo.even ∧
  @first_line_ok Demo.universe Demo.even Demo.mirrored_hull Demo.no_kwargs = true ∧
  ∃ SV log',
    @ReflectionSymmetry_build_matrices Demo.universe Demo.even
      Demo.mirrored_hull Self false Demo.no_kwargs [] = (Ok SV, log') ∧
    @TranslationalSymmetry_build_matrices Demo.universe Demo.even
      Demo.mirrored_hull Self false Demo.no_kwargs [] = (Ok SV, log').
Proof.
  assert (Hfaces : @faces_preserved Demo.universe Demo.even)
    by (repeat split; intros; reflexivity).
  assert (Hok : @first_line_ok Demo.universe Demo.even Demo.mirrored_hull
                  Demo.no_kwargs = true) by (vm_compute; reflexivity).
  split; [exact Hfaces|]. split; [exact Hok|].
  apply (@reflection_is_translation_of_two Demo.universe Demo.even Demo.hull
           Demo.hull_mirrored 0 Demo.mirrored_hull Demo.no_kwargs []);
    [exact Hfaces | reflexivity | exact Hok].
Defined.

Lemma reflection_kernel_failure_witness :
  @ReflectionSymmetry_build_matrices Demo.universe (Demo.failing 0)
    Demo.mirrored_hull Self false Demo.no_kwargs []
  = (Raise (OtherError "KernelEvaluationFailure"),
     [] ++ [(Demo.hull_mirrored, Demo.hull_mirrored, Demo.no_kwargs)]) ∧
  ∃ other_half,
    subbodies Demo.mirrored_hull = [Demo.hull_mirrored; other_half] ∧
    @ReflectionSymmetry_build_matrices Demo.universe (Demo.failing 2)
      Demo.mirrored_hull Self false Demo.no_kwargs []
    = (Raise (OtherError "KernelEvaluationFailure"),
       [] ++ [(Demo.hull_mirrored, Demo.hull_mirrored, Demo.no_kwargs);
              (Demo.hull_mirrored, other_half, Demo.no_kwargs)]).
Proof.
  split.
  - destruct (@reflection_kernel_failure Demo.universe (Demo.failing 0) Demo.hull
                Demo.hull_mirrored 0 Demo.mirrored_hull Demo.no_kwargs []
                (OtherError "KernelEvaluationFailure"))
      as (other_half & _ & Hfirst & _);
      [repeat split; intros; reflexivity | reflexivity |].
    apply Hfirst. reflexivity.
  - destruct (@reflection_kernel_failure Demo.universe (Demo.failing 2) Demo.hull
                Demo.hull_mirrored 0 Demo.mirrored_hull Demo.no_kwargs []
                (OtherError "KernelEvaluationFailure"))
      as (other_half & Hsub & _ & Hsecond);
      [repeat split; intros; reflexivity | reflexivity |].
    exists other_half. split; [exact Hsub|].
    apply Hsecond; [vm_compute; reflexivity|].
    injection Hsub as <-. reflexivity.
Defined.

Lemma translation_kernel_failure_witness :
  @TranslationalSymmetry_build_matrices Demo.universe (Demo.failing 2)
    (Demo.repeated_hull 2) Self false Demo.no_kwargs []
  = (Raise (OtherError "KernelEvaluationFailure"),
     [] ++ ((λ g, (Demo.hull_repeated 2, g, Demo.no_kwargs))
              <$> take 3 (subbodies (Demo.repeated_hull 2)))).
Proof.
  apply (@translation_kernel_failure Demo.universe (Demo.failing 2) Demo.hull
           (Demo.hull_repeated 2) [1; 0; 0]%Z (PyInt 2) (Demo.repeated_hull 2)
           Demo.no_kwargs [] 2
           (@new_slice Demo.universe Demo.even (Demo.hull_repeated 2)
              [1; 0; 0]%Z 2 2));
    [repeat split; intros; reflexivity | reflexivity | reflexivity
    | vm_compute; reflexivity | reflexivity].
Defined.

Lemma reflection_shape_mismatch_witness :
  @ReflectionSymmetry_build_matrices Demo.universe Demo.tall
    Demo.mirrored_hull Self false Demo.no_kwargs []
  = (Raise ValueError,
     [] ++ [(Demo.hull_mirrored, Demo.hull_mirrored, Demo.no_kwargs)]).
Proof.
  eapply (@reflection_shape_mismatch Demo.universe Demo.tall Demo.hull
            Demo.hull_mirrored 0 Demo.mirrored_hull Demo.no_kwargs []);
    [repeat split; intros; reflexivity | reflexivity | reflexivity
    | left; vm_compute; reflexivity].
Defined.

Lemma matrix_blocks_partition_witness :
  ∃ i j b,
    block_at (Demo.repeated_hull 2) i j = Some b ∧
    in_block b 6 6 3 5 = true ∧
    ∀ i' j' b', block_at (Demo.repeated_hull 2) i' j' = Some b' →
                in_block b' 6 6 3 5 = true → i' = i ∧ j' = j.
Proof.
  destruct (@matrix_blocks_partition Demo.universe (Demo.repeated_hull 2))
    as (_ & _ & Hpart).
  apply (Hpart 3 5); vm_compute; lia.
Defined.
